(** * Chat with YouTube: the URL identifier extractor, the transcript
      adapter and the session handlers of [app.py]

    The development embeds [extract_video_id], [fetch_video_data] and the two
    Streamlit handlers of [app.py] (the "Load Video" button and the chat
    input) and proves the properties the specification states about them.

    Python strings are lists of characters; [str.split], [in], [x[0]] and
    [x[-1]] are written out.  The script's effects (the session state, the
    user-interface calls, the calls to the external collaborators) are threaded
    through a state-and-exception monad. *)

From Equations Require Import Equations.
From Stdlib Require Import Ascii String Arith Bool Lia List.
Import ListNotations.

Set Implicit Arguments.

(** ** Strings *)

Definition str := list ascii.

(** A Python string literal. *)
Definition lit (s : string) : str := list_ascii_of_string s.

(** [s.startswith(p)]. *)
Fixpoint startswith (p s : str) : bool :=
  match p, s with
  | [], _ => true
  | _ :: _, [] => false
  | a :: p', b :: s' => Ascii.eqb a b && startswith p' s'
  end.

(** [s.find(sub)]: the index of the first occurrence of [sub] in [s],
    [None] for Python's [-1]. *)
Fixpoint find (sub s : str) : option nat :=
  if startswith sub s then Some 0
  else match s with
       | [] => None
       | _ :: s' => option_map S (find sub s')
       end.

(** [sub in s]. *)
Definition contains (sub s : str) : bool :=
  match find sub s with
  | Some _ => true
  | None => false
  end.

(** ** Exceptions and results *)

Inductive exn_class := ValueError | IndexError | OtherException.

(** An exception object: its class (only the distinction the handlers of
    [app.py] make) and its [str(e)]. *)
Record exn := mkExn { exn_cls : exn_class; exn_str : str }.

Inductive result (A : Type) :=
| Ok (a : A)
| Raise (e : exn).
Arguments Ok {A} a.
Arguments Raise {A} e.

Definition is_ValueError (e : exn) : bool :=
  match exn_cls e with
  | ValueError => true
  | _ => false
  end.

(** ** [str.split] and indexing *)

Definition inspect {A} (a : A) : {b : A | a = b} := exist _ a eq_refl.

(** The loop of [s.split(sep)] for the non-empty separator [c :: sep']:
    find the next occurrence from the current position, emit what precedes
    it, continue after it; what is left after the last occurrence is the
    last piece. *)
Equations? split_loop (c : ascii) (sep' : str) (s : str) : list str
  by wf (length s) lt :=
  split_loop c sep' s with inspect (find (c :: sep') s) := {
    | exist _ (Some i) H => firstn i s :: split_loop c sep' (skipn (i + length (c :: sep')) s)
    | exist _ None _ => [s] }.
Proof.
  assert (L : forall p t, startswith p t = true -> length p <= length t).
  { induction p as [|a p IH]; intros [|b t]; simpl; try lia; try discriminate.
    intros E; apply andb_true_iff in E as [_ E]. apply IH in E. lia. }
  assert (B : forall t j, find (c :: sep') t = Some j -> j + length (c :: sep') <= length t).
  { induction t as [|b t IH]; intros j.
    - simpl. discriminate.
    - cbn [find]. destruct (startswith (c :: sep') (b :: t)) eqn:E.
      + intros [= <-]. apply L in E. lia.
      + destruct (find (c :: sep') t) as [k|]; simpl; [|discriminate].
        intros [= <-]. specialize (IH k eq_refl). simpl in *. lia. }
  apply B in H. rewrite length_skipn. simpl in *. lia.
Qed.

(** [s.split(sep)]; Python raises [ValueError] for the empty separator. *)
Definition split (sep s : str) : result (list str) :=
  match sep with
  | [] => Raise (mkExn ValueError (lit "empty separator"))
  | c :: sep' => Ok (split_loop c sep' s)
  end.

(** [l[0]] *)
Definition first_item (l : list str) : result str :=
  match l with
  | [] => Raise (mkExn IndexError (lit "list index out of range"))
  | x :: _ => Ok x
  end.

(** [l[-1]] *)
Definition last_item (l : list str) : result str :=
  match l with
  | [] => Raise (mkExn IndexError (lit "list index out of range"))
  | x :: l' => Ok (last l' x)
  end.

(** [sep.join(l)] *)
Fixpoint join (sep : str) (l : list str) : str :=
  match l with
  | [] => []
  | [x] => x
  | x :: l' => x ++ sep ++ join sep l'
  end.

(** Truth value of a string: the empty string is false. *)
Definition truthy (s : str) : bool :=
  match s with
  | [] => false
  | _ :: _ => true
  end.

Definition str_eqb (a b : str) : bool :=
  if list_eq_dec ascii_dec a b then true else false.

(** ** The external collaborators

    The transcript service and the knowledge-base library are not part of
    [app.py].  Each of their operations is a function of the state of the
    outside world, returns a value or raises, and leaves a new state of the
    world. *)

(** What [app.chat] returns: a string, or an object that may have a
    [response] attribute and has a [str()]. *)
Inductive Response :=
| RespStr (s : str)
| RespObj (response_attr : option str) (to_str : str).

(** The configuration [embedchain_bot] passes to [App.from_config]; the two
    floating-point options are kept as the literals of the source. *)
Record Config := mkConfig {
  llm_provider : str;
  llm_model : str;
  llm_temperature : str;
  llm_api_key : str;
  llm_top_p : str;
  vectordb_provider : str;
  vectordb_dir : str;
  embedder_provider : str;
  embedder_model : str
}.

Class Collaborators := {
  World : Type;
  AppHandle : Type;
  TranscriptList : Type;
  Transcript : Type;
  Seconds : Type;
  (* YouTubeTranscriptApi.list_transcripts(video_id) *)
  api_list_transcripts : str -> World -> result TranscriptList * World;
  (* transcript_list.find_generated_transcript(languages) *)
  api_find_generated_transcript :
    TranscriptList -> list str -> World -> result Transcript * World;
  (* transcript_list.find_transcript(languages) *)
  api_find_transcript :
    TranscriptList -> list str -> World -> result Transcript * World;
  (* transcript_list.manually_created_transcripts.keys(): the attribute read
     raises when the list has no such attribute *)
  manually_created_keys : TranscriptList -> result (list str);
  (* transcript_list.generated_transcripts.keys(), likewise *)
  generated_keys : TranscriptList -> result (list str);
  (* transcript.fetch(): the entries, each with its text, start and duration *)
  api_fetch : Transcript -> World -> result (list (str * Seconds * Seconds)) * World;
  (* app.add(text, data_type=..., metadata={"title": ..., "url": ...}) *)
  api_add : AppHandle -> str -> str -> str -> str -> World -> result unit * World;
  (* app.chat(prompt) *)
  api_chat : AppHandle -> str -> World -> result Response * World;
  (* genai.configure(api_key=...) *)
  api_configure : str -> World -> result unit * World;
  (* tempfile.mkdtemp() *)
  api_mkdtemp : World -> result str * World;
  (* App.from_config(config=...) *)
  api_from_config : Config -> World -> result AppHandle * World
}.

Section Monad.

Context {C : Collaborators}.

(** A transcript entry, [{"text": ..., "start": ..., "duration": ...}]. *)
Definition Entry : Type := str * Seconds * Seconds.
Definition entry_text (e : Entry) : str := fst (fst e).

(** A conversation turn, [{"role": ..., "content": ...}]. *)
Record Message := mkMessage { role : str; content : str }.

(** [st.session_state] *)
Record SessionState := mkSession {
  app : option AppHandle;
  db_path : option str;
  current_video_url : str;
  messages : list Message
}.

(** What the script shows to the user. *)
Inductive UiEvent :=
| UiWarning (s : str)
| UiError (s : str)
| UiInfo (s : str)
| UiSuccess (s : str)
| UiSpinner (s : str)
| UiChatMarkdown (role content : str)
| UiPlaceholderMarkdown (s : str)
| UiPlaceholderError (s : str).

(** The calls made to the collaborators, recorded in the order they are made. *)
Inductive Call :=
| CallListTranscripts (video_id : str)
| CallFindGenerated (languages : list str)
| CallFindTranscript (languages : list str)
| CallFetch
| CallAdd (text data_type title url : str)
| CallChat (prompt : str)
| CallConfigure (api_key : str)
| CallMkdtemp
| CallFromConfig (config : Config).

Record St := mkSt {
  session_state : SessionState;
  world : World;
  ui : list UiEvent;
  calls : list Call
}.

(** ** The monad of the script: state and exceptions *)

Definition M (A : Type) : Type := St -> result A * St.

Definition ret {A} (a : A) : M A := fun s => (Ok a, s).

Definition bind {A B} (m : M A) (k : A -> M B) : M B :=
  fun s => match m s with
           | (Ok a, s') => k a s'
           | (Raise e, s') => (Raise e, s')
           end.

Definition raise {A} (e : exn) : M A := fun s => (Raise e, s).

(** [try: m except Exception as e: h e] *)
Definition try_except {A} (m : M A) (h : exn -> M A) : M A :=
  fun s => match m s with
           | (Ok a, s') => (Ok a, s')
           | (Raise e, s') => h e s'
           end.

Definition lift {A} (r : result A) : M A := fun s => (r, s).

Definition get_session : M SessionState := fun s => (Ok (session_state s), s).

Definition put_session (x : SessionState) : M unit :=
  fun s => (Ok tt, mkSt x (world s) (ui s) (calls s)).

Definition emit (e : UiEvent) : M unit :=
  fun s => (Ok tt, mkSt (session_state s) (world s) (ui s ++ [e]) (calls s)).

(** A call to a collaborator: it is recorded, then run on the world. *)
Definition external {A} (c : Call) (f : World -> result A * World) : M A :=
  fun s => let (r, w) := f (world s) in
           (r, mkSt (session_state s) w (ui s) (calls s ++ [c])).

End Monad.

Declare Scope py_scope.
Delimit Scope py_scope with py.
Notation "x <- m ;; k" := (bind m (fun x => k))
  (at level 61, m at next level, right associativity) : py_scope.
Notation "m ;;; k" := (bind m (fun _ => k))
  (at level 61, right associativity) : py_scope.
Open Scope py_scope.

(** ** The program *)

Section Script.

Context {C : Collaborators}.

Definition st_warning (s : str) : M unit := emit (UiWarning s).
Definition st_error (s : str) : M unit := emit (UiError s).
Definition st_info (s : str) : M unit := emit (UiInfo s).
Definition st_success (s : str) : M unit := emit (UiSuccess s).
Definition st_spinner (s : str) : M unit := emit (UiSpinner s).

Definition GOOGLE_EMBEDDING_MODEL : str := lit "models/embedding-001".

(** [embedchain_bot], app.py lines 11-40. *)
Definition embedchain_bot (db_path api_key : str) : M AppHandle :=
  let config :=
    mkConfig (lit "google") (lit "models/gemini-1.5-pro-latest") (lit "0.5") api_key
             (lit "0.95") (lit "chroma") db_path (lit "google") GOOGLE_EMBEDDING_MODEL in
  external (CallFromConfig config) (api_from_config config).

(** [raise ValueError("Invalid or unrecognized YouTube URL format.")] *)
Definition invalid_url : exn :=
  mkExn ValueError (lit "Invalid or unrecognized YouTube URL format.").

(** [extract_video_id], app.py lines 42-61. *)
Definition extract_video_id (video_url : str) : M str :=
  if contains (lit "youtube.com/watch?v=") video_url then
    a <- lift (split (lit "v=") video_url) ;;
    b <- lift (last_item a) ;;
    c <- lift (split (lit "&") b) ;;
    lift (first_item c)
  else if contains (lit "youtube.com/shorts/") video_url then
    a <- lift (split (lit "/shorts/") video_url) ;;
    b <- lift (last_item a) ;;
    c <- lift (split (lit "?") b) ;;
    d <- lift (first_item c) ;;
    e <- lift (split (lit "&") d) ;;
    lift (first_item e)
  else if contains (lit "youtu.be/") video_url then
    a <- lift (split (lit "youtu.be/") video_url) ;;
    b <- lift (last_item a) ;;
    c <- lift (split (lit "?") b) ;;
    d <- lift (first_item c) ;;
    e <- lift (split (lit "&") d) ;;
    lift (first_item e)
  else
    st_warning (lit "Could not parse YouTube URL format reliably. Attempting extraction...") ;;;
    parts <- lift (split (lit "/") video_url) ;;
    if 1 <? length parts then
      b <- lift (last_item parts) ;;
      c <- lift (split (lit "?") b) ;;
      d <- lift (first_item c) ;;
      e <- lift (split (lit "&") d) ;;
      potential_id <- lift (first_item e) ;;
      if length potential_id =? 11 then ret potential_id
      else raise invalid_url
    else raise invalid_url.

(** The text [fetch_video_data] returns when it could not get a transcript. *)
Definition no_transcript : str := lit "No transcript available for this video.".

(** [a.keys() | b.keys()]: the union of two key views, as a set. *)
Definition keys_union (a b : list str) : list str :=
  nodup (list_eq_dec ascii_dec) (a ++ b).

(** [fetch_video_data], app.py lines 64-84. *)
Definition fetch_video_data (video_url : str) : M (str * str) :=
  try_except
    (video_id <- extract_video_id video_url ;;
     transcript_list <- external (CallListTranscripts video_id)
                                 (api_list_transcripts video_id) ;;
     transcript <-
       try_except
         (t <- external (CallFindGenerated [lit "en"])
                        (api_find_generated_transcript transcript_list [lit "en"]) ;;
          external CallFetch (api_fetch t))
         (fun _ =>
            st_warning (lit "English transcript not found, fetching first available language.") ;;;
            manual <- lift (manually_created_keys transcript_list) ;;
            generated <- lift (generated_keys transcript_list) ;;
            let languages := keys_union manual generated in
            t <- external (CallFindTranscript languages)
                          (api_find_transcript transcript_list languages) ;;
            external CallFetch (api_fetch t)) ;;
     let transcript_text := join (lit " ") (map entry_text transcript) in
     let title := lit "Video (ID: " ++ video_id ++ lit ")" in
     ret (title, transcript_text))
    (fun e =>
       st_error (lit "Error fetching transcript for " ++ video_url ++ lit ": " ++ exn_str e) ;;;
       ret (lit "Unknown", no_transcript)).

Definition set_current_video_url (u : str) : M unit :=
  x <- get_session ;;
  put_session (mkSession (app x) (db_path x) u (messages x)).

Definition set_messages (l : list Message) : M unit :=
  x <- get_session ;;
  put_session (mkSession (app x) (db_path x) (current_video_url x) l).

Definition is_some {A} (o : option A) : bool :=
  match o with
  | Some _ => true
  | None => false
  end.

Definition set_app (a : option AppHandle) : M unit :=
  x <- get_session ;;
  put_session (mkSession a (db_path x) (current_video_url x) (messages x)).

Definition set_db_path (d : option str) : M unit :=
  x <- get_session ;;
  put_session (mkSession (app x) d (current_video_url x) (messages x)).

(** [st.session_state.messages.append(m)] *)
Definition append_message (m : Message) : M unit :=
  x <- get_session ;;
  put_session (mkSession (app x) (db_path x) (current_video_url x) (messages x ++ [m])).

(** [st.session_state.app.f(...)]: a method call on [None] is an
    [AttributeError]. *)
Definition with_app {A} (f : AppHandle -> M A) : M A :=
  x <- get_session ;;
  match app x with
  | Some h => f h
  | None => raise (mkExn OtherException (lit "'NoneType' object has no attribute"))
  end.

(** The configuration of the sidebar, app.py lines 108-125, for what was
    typed in the key field; it returns [google_api_key] as the rest of the
    script sees it, [None] when the configuration failed. *)
Definition sidebar_configuration (google_api_key : str) : M (option str) :=
  if truthy google_api_key then
    try_except
      (external (CallConfigure google_api_key) (api_configure google_api_key) ;;;
       st_success (lit "Google API Key configured!") ;;;
       x <- get_session ;;
       (if negb (is_some (app x)) then
          st_spinner (lit "Initializing Embedchain App...") ;;;
          d <- external CallMkdtemp api_mkdtemp ;;
          set_db_path (Some d) ;;;
          a <- embedchain_bot d google_api_key ;;
          set_app (Some a) ;;;
          st_info (lit "App initialized.")
        else ret tt) ;;;
       ret (Some google_api_key))
      (fun e =>
         st_error (lit "Failed to configure Google API: " ++ exn_str e) ;;;
         set_app None ;;;
         ret None)
  else ret (Some google_api_key).

(** The body of the "Load Video" button, app.py lines 131-154. *)
Definition load_video (video_url_input : str) : M unit :=
  x <- get_session ;;
  if is_some (app x) && truthy video_url_input
     && negb (str_eqb video_url_input (current_video_url x)) then
    st_spinner (lit "Fetching transcript for " ++ video_url_input ++ lit "...") ;;;
    try_except
      (r <- fetch_video_data video_url_input ;;
       let (title, transcript) := r in
       if negb (str_eqb transcript (lit "No transcript available for this video.")) then
         with_app (fun h =>
           external (CallAdd transcript (lit "text") title video_url_input)
                    (api_add h transcript (lit "text") title video_url_input)) ;;;
         set_current_video_url video_url_input ;;;
         set_messages [] ;;;
         st_success (lit "Added video '" ++ title ++ lit "' to knowledge base!")
       else
         st_warning (lit "No transcript found for video '" ++ title
                     ++ lit "'. Cannot add to knowledge base."))
      (fun e =>
         if is_ValueError e then st_error (lit "Invalid YouTube URL: " ++ exn_str e)
         else st_error (lit "Error processing video: " ++ exn_str e))
  else if negb (is_some (app x)) then
    st_warning (lit "Please enter a valid API key first.")
  else if str_eqb video_url_input (current_video_url x) then
    st_info (lit "This video is already loaded.")
  else ret tt.

(** [st.button("Load Video", disabled=not google_api_key or not video_url_input)]
    and its body, app.py line 130: a disabled button is never pressed. *)
Definition load_video_button (google_api_key : option str) (video_url_input : str)
    (pressed : bool) : M unit :=
  let disabled := negb (match google_api_key with Some k => truthy k | None => false end)
                  || negb (truthy video_url_input) in
  if pressed && negb disabled then load_video video_url_input else ret tt.

(** [for message in l: with st.chat_message(...): st.markdown(...)] *)
Fixpoint show_messages (l : list Message) : M unit :=
  match l with
  | [] => ret tt
  | m :: l' => emit (UiChatMarkdown (role m) (content m)) ;;; show_messages l'
  end.

(** [response if isinstance(response, str)
     else getattr(response, 'response', str(response))] *)
Definition answer_of (response : Response) : str :=
  match response with
  | RespStr s => s
  | RespObj (Some r) _ => r
  | RespObj None s => s
  end.

(** The chat interface, app.py lines 160-202; [chat_input] is what
    [st.chat_input] returns in this run of the script. *)
Definition chat_interface (chat_input : option str) : M unit :=
  x <- get_session ;;
  if negb (truthy (current_video_url x)) then
    st_info (lit "Please enter a YouTube URL and click 'Load Video' in the sidebar.")
  else if negb (is_some (app x)) then
    st_warning (lit "App not initialized. Please check API key.")
  else
    st_info (lit "Currently chatting with: " ++ current_video_url x) ;;;
    show_messages (messages x) ;;;
    match chat_input with
    | Some prompt =>
      if truthy prompt then
        append_message (mkMessage (lit "user") prompt) ;;;
        emit (UiChatMarkdown (lit "user") prompt) ;;;
        st_spinner (lit "Analyzing with Gemini...") ;;;
        full_response <-
          try_except
            (response <- with_app (fun h => external (CallChat prompt) (api_chat h prompt)) ;;
             let answer := answer_of response in
             emit (UiPlaceholderMarkdown answer) ;;;
             ret answer)
            (fun e =>
               let full_response := lit "Sorry, an error occurred: " ++ exn_str e in
               emit (UiPlaceholderError full_response) ;;;
               ret full_response) ;;
        append_message (mkMessage (lit "assistant") full_response)
      else ret tt
    | None => ret tt
    end.

(** A run of the script from the sidebar on, app.py lines 104-202, for the
    values of its widgets in this run. *)
Definition script (google_api_key video_url_input : str) (pressed : bool)
    (chat_input : option str) : M unit :=
  key <- sidebar_configuration google_api_key ;;
  load_video_button key video_url_input pressed ;;;
  chat_interface chat_input.

End Script.

(** ** Reference definitions, written from the specification's words *)

(** Splitting at every occurrence of one character. *)
Fixpoint split_char (c : ascii) (s : str) : list str :=
  match s with
  | [] => [[]]
  | x :: s' =>
    if Ascii.eqb x c then [] :: split_char c s'
    else match split_char c s' with
         | h :: t => (x :: h) :: t
         | [] => [[x]]
         end
  end.

(** A parameter separator, [?] or [&]. *)
Definition is_param_sep (x : ascii) : bool :=
  Ascii.eqb x "?"%char || Ascii.eqb x "&"%char.

(** The text before the first character that satisfies [p]. *)
Fixpoint before (p : ascii -> bool) (s : str) : str :=
  match s with
  | [] => []
  | x :: s' => if p x then [] else x :: before p s'
  end.

(** "split the URL on path separators and take the last segment, stripped of
    any query string" *)
Definition last_segment (url : str) : str :=
  before is_param_sep (last (split_char "/"%char url) []).

(** "accept only if exactly 11 characters long; otherwise fail" *)
Definition fallback_rule (url : str) : result str :=
  if length (last_segment url) =? 11 then Ok (last_segment url)
  else Raise invalid_url.

(** The three recognized URL shapes, in the order [extract_video_id] tries
    them. *)
Inductive shape := WatchPage | ShortsPath | ShortLink.

(** The text the rule of a shape splits the URL at. *)
Definition token (sh : shape) : str :=
  match sh with
  | WatchPage => lit "v="
  | ShortsPath => lit "/shorts/"
  | ShortLink => lit "youtu.be/"
  end.

(** What precedes the token in the marker of a shape. *)
Definition marker_lead (sh : shape) : str :=
  match sh with
  | WatchPage => lit "youtube.com/watch?"
  | ShortsPath => lit "youtube.com"
  | ShortLink => []
  end.

(** The marker [extract_video_id] looks for: [youtube.com/watch?v=],
    [youtube.com/shorts/], [youtu.be/]. *)
Definition marker (sh : shape) : str := marker_lead sh ++ token sh.

(** The characters at which the rule of a shape cuts the identifier. *)
Definition cuts (sh : shape) (x : ascii) : bool :=
  match sh with
  | WatchPage => Ascii.eqb x "&"%char
  | ShortsPath | ShortLink => is_param_sep x
  end.

(** The rules tried before the rule of a shape do not apply to the URL. *)
Definition earlier_rules_miss (sh : shape) (url : str) : bool :=
  match sh with
  | WatchPage => true
  | ShortsPath => negb (contains (marker WatchPage) url)
  | ShortLink => negb (contains (marker WatchPage) url)
                 && negb (contains (marker ShortsPath) url)
  end.

(** The URL holds none of the three markers. *)
Definition unrecognized (url : str) : bool :=
  negb (contains (marker WatchPage) url)
  && negb (contains (marker ShortsPath) url)
  && negb (contains (marker ShortLink) url).

(** The position check behind [split_after_marker]: when a marker [m ++ sep]
    is searched for [sep] from the left, no occurrence of [sep] that begins
    before the marker's own may run into it.  For every overlap [k] either
    [sep] does not repeat its first character at [k], or the marker has
    another character where such an occurrence would begin. *)
Definition sync_check (m sep : str) : bool :=
  forallb
    (fun k =>
       negb (Ascii.eqb (nth k sep zero) (nth 0 sep zero))
       || ((k <=? length m)
           && negb (Ascii.eqb (nth (length m - k) m zero) (nth 0 sep zero))))
    (seq 1 (length sep - 1)).

(** No occurrence of [sep] in [x ++ sep ++ t] begins in [x] and ends after it. *)
Definition no_straddle (sep x t : str) : Prop :=
  forall i, i < length x -> length x < i + length sep ->
            startswith sep (skipn i (x ++ sep ++ t)) = false.

(** ** States and outcomes the statements speak of *)

Section Outcomes.

Context {C : Collaborators}.

(** The state after the warning of the fallback rule. *)
Definition warned (s : St) : St :=
  mkSt (session_state s) (world s)
       (ui s ++ [UiWarning (lit "Could not parse YouTube URL format reliably. Attempting extraction...")])
       (calls s).

(** The state after [extract_video_id]. *)
Definition extracted (url : str) (s : St) : St :=
  if unrecognized url then warned s else s.

(** The state once the spinner of the "Load Video" button is shown. *)
Definition spinning (url : str) (s : St) : St :=
  mkSt (session_state s) (world s)
       (ui s ++ [UiSpinner (lit "Fetching transcript for " ++ url ++ lit "...")])
       (calls s).

(** The title [fetch_video_data] makes for a video. *)
Definition title_of (video_id : str) : str := lit "Video (ID: " ++ video_id ++ lit ")".

(** The attempt at the generated English track from the world [w]: the
    entries when it is found and fetched, [None] when it is not found or not
    fetched, and the world the attempt leaves. *)
Inductive english_attempt (tl : TranscriptList) (w : World) :
  option (list Entry) -> World -> Prop :=
| english_found t w1 entries w2 :
    api_find_generated_transcript tl [lit "en"] w = (Ok t, w1) ->
    api_fetch t w1 = (Ok entries, w2) ->
    english_attempt tl w (Some entries) w2
| english_not_found e w1 :
    api_find_generated_transcript tl [lit "en"] w = (Raise e, w1) ->
    english_attempt tl w None w1
| english_not_fetched t w1 e w2 :
    api_find_generated_transcript tl [lit "en"] w = (Ok t, w1) ->
    api_fetch t w1 = (Raise e, w2) ->
    english_attempt tl w None w2.

(** The attempt at a track in any of the offered languages: the languages
    of the manually created and of the generated tracks are read, a track in
    one of them is looked for and fetched; [None] when a read, the search or
    the fetch raises. *)
Inductive any_attempt (tl : TranscriptList) (w : World) :
  option (list Entry) -> Prop :=
| any_found manual generated t w1 entries w2 :
    manually_created_keys tl = Ok manual ->
    generated_keys tl = Ok generated ->
    api_find_transcript tl (keys_union manual generated) w = (Ok t, w1) ->
    api_fetch t w1 = (Ok entries, w2) ->
    any_attempt tl w (Some entries)
| any_no_manual_keys e :
    manually_created_keys tl = Raise e ->
    any_attempt tl w None
| any_no_generated_keys manual e :
    manually_created_keys tl = Ok manual ->
    generated_keys tl = Raise e ->
    any_attempt tl w None
| any_not_found manual generated e w1 :
    manually_created_keys tl = Ok manual ->
    generated_keys tl = Ok generated ->
    api_find_transcript tl (keys_union manual generated) w = (Raise e, w1) ->
    any_attempt tl w None
| any_not_fetched manual generated t w1 e w2 :
    manually_created_keys tl = Ok manual ->
    generated_keys tl = Ok generated ->
    api_find_transcript tl (keys_union manual generated) w = (Ok t, w1) ->
    api_fetch t w1 = (Raise e, w2) ->
    any_attempt tl w None.

(** The steps of transcript acquisition for [url] from the world of [s], as
    the specification lists them: identifier extraction, track listing,
    track selection (English first, then any offered language) and fetching.
    [acquisition url s (Some (id, entries))] when they succeed with the
    entries of the selected track, [acquisition url s None] when a step
    fails. *)
Inductive acquisition (url : str) (s : St) : option (str * list Entry) -> Prop :=
| acq_no_identifier e :
    fst (extract_video_id url s) = Raise e ->
    acquisition url s None
| acq_no_listing video_id e w1 :
    fst (extract_video_id url s) = Ok video_id ->
    api_list_transcripts video_id (world s) = (Raise e, w1) ->
    acquisition url s None
| acq_english video_id tl w1 entries w2 :
    fst (extract_video_id url s) = Ok video_id ->
    api_list_transcripts video_id (world s) = (Ok tl, w1) ->
    english_attempt tl w1 (Some entries) w2 ->
    acquisition url s (Some (video_id, entries))
| acq_any video_id tl w1 w2 r :
    fst (extract_video_id url s) = Ok video_id ->
    api_list_transcripts video_id (world s) = (Ok tl, w1) ->
    english_attempt tl w1 None w2 ->
    any_attempt tl w2 r ->
    acquisition url s (option_map (pair video_id) r).

(** What [fetch_video_data] returns for an outcome of the acquisition. *)
Definition transcript_result (o : option (str * list Entry)) : str * str :=
  match o with
  | Some (video_id, entries) =>
    (title_of video_id, join (lit " ") (map entry_text entries))
  | None => (lit "Unknown", lit "No transcript available for this video.")
  end.

(** What the chat handler puts in the assistant turn. *)
Definition full_response_of (r : result Response) : str :=
  match r with
  | Ok response => answer_of response
  | Raise e => lit "Sorry, an error occurred: " ++ exn_str e
  end.

(** The session with a user turn and an assistant turn appended. *)
Definition with_turns (x : SessionState) (prompt full_response : str) : SessionState :=
  mkSession (app x) (db_path x) (current_video_url x)
            (messages x ++ [mkMessage (lit "user") prompt;
                            mkMessage (lit "assistant") full_response]).

(** What there is to show after the body of the button, as the handler
    words it. *)
Definition added_notice (title : str) : UiEvent :=
  UiSuccess (lit "Added video '" ++ title ++ lit "' to knowledge base!").

Definition no_transcript_notice (title : str) : UiEvent :=
  UiWarning (lit "No transcript found for video '" ++ title
             ++ lit "'. Cannot add to knowledge base.").

Definition failure_notice (e : exn) : UiEvent :=
  if is_ValueError e then UiError (lit "Invalid YouTube URL: " ++ exn_str e)
  else UiError (lit "Error processing video: " ++ exn_str e).

End Outcomes.

(** ** Scripted collaborators, for the examples *)

(** What the collaborators answer in an example. *)
Record Scenario := mkScenario {
  sc_list_ok : bool;
  sc_english_ok : bool;
  sc_any_ok : bool;
  sc_fetch_ok : bool;
  sc_texts : list str;
  sc_add_ok : bool;
  sc_chat : result Response
}.

Definition failure (msg : string) : exn := mkExn OtherException (lit msg).

Definition reply {A} (ok : bool) (a : A) (msg : string) (w : unit) : result A * unit :=
  (if ok then Ok a else Raise (failure msg), w).

Definition scripted (sc : Scenario) : Collaborators := {|
  World := unit;
  AppHandle := unit;
  TranscriptList := unit;
  Transcript := unit;
  Seconds := nat;
  api_list_transcripts := fun _ => reply (sc_list_ok sc) tt "transcripts disabled";
  api_find_generated_transcript := fun _ _ => reply (sc_english_ok sc) tt "no transcript found";
  api_find_transcript := fun _ _ => reply (sc_any_ok sc) tt "no transcript found";
  manually_created_keys := fun _ => Ok [];
  generated_keys := fun _ => Ok [lit "de"];
  api_fetch := fun _ => reply (sc_fetch_ok sc) (map (fun x => (x, 0, 0)) (sc_texts sc))
                              "could not retrieve";
  api_add := fun _ _ _ _ _ => reply (sc_add_ok sc) tt "quota exceeded";
  api_chat := fun _ _ w => (sc_chat sc, w);
  api_configure := fun _ => reply true tt "invalid key";
  api_mkdtemp := reply true (lit "/tmp/tmpdb") "no space left";
  api_from_config := fun _ => reply true tt "invalid configuration"
|}.

(** All collaborators answer; the transcript is two entries. *)
Definition sunny : Scenario :=
  mkScenario true true true true [lit "hello"; lit "world"] true
             (Ok (RespStr (lit "It says hello."))).

(** A session as the script creates it, app.py lines 93-100. *)
Definition fresh (sc : Scenario) : @St (scripted sc) :=
  @mkSt (scripted sc) (@mkSession (scripted sc) None None [] []) tt [] [].

(** A session with an application handle, a loaded video and a history. *)
Definition session_of (sc : Scenario) (loaded : str) (history : list Message)
  : @St (scripted sc) :=
  @mkSt (scripted sc)
        (@mkSession (scripted sc) (Some tt) (Some (lit "/tmp/tmpdb")) loaded history)
        tt [] [].

Definition earlier_turns : list Message :=
  [mkMessage (lit "user") (lit "Who speaks?");
   mkMessage (lit "assistant") (lit "The host.")].

Definition video_a : str := lit "https://youtu.be/aaaaaaaaaaa".
Definition video_b : str := lit "https://www.youtube.com/watch?v=dQw4w9WgXcQ".


(** No transcript can be listed. *)
Definition no_listing : Scenario :=
  mkScenario false true true true [] true (Ok (RespStr (lit "It says hello."))).

(** The knowledge base refuses the document. *)
Definition add_refused : Scenario :=
  mkScenario true true true true [lit "hello"; lit "world"] false
             (Ok (RespStr (lit "It says hello."))).

(** The chat call raises. *)
Definition chat_down : Scenario :=
  mkScenario true true true true [lit "hello"; lit "world"] true
             (Raise (failure "rate limit")).

(** The video says, in two entries, what the adapter says when it has no
    transcript. *)
Definition says_sentinel : Scenario :=
  mkScenario true true true true [lit "No transcript available"; lit "for this video."]
             true (Ok (RespStr (lit "It says hello."))).

(** ** Further notions for the handlers and the script *)

Section Notions.

Context {C : Collaborators}.

(** The calls that go to the transcript service. *)
Definition is_transcript_call (c : Call) : bool :=
  match c with
  | CallListTranscripts _ | CallFindGenerated _ | CallFindTranscript _ | CallFetch => true
  | _ => false
  end.

(** A history made of exchanges: a user turn, then an assistant turn. *)
Fixpoint paired (l : list Message) : bool :=
  match l with
  | [] => true
  | u :: a :: l' =>
    str_eqb (role u) (lit "user") && str_eqb (role a) (lit "assistant") && paired l'
  | _ => false
  end.

(** How a message of the history is shown. *)
Definition shown (m : Message) : UiEvent := UiChatMarkdown (role m) (content m).

(** The notice of the chat interface when it is closed. *)
Definition closed_notice (x : SessionState) : UiEvent :=
  if truthy (current_video_url x)
  then UiWarning (lit "App not initialized. Please check API key.")
  else UiInfo (lit "Please enter a YouTube URL and click 'Load Video' in the sidebar.").

(** The configuration [embedchain_bot] builds for a directory and a key. *)
Definition config_of (db_path api_key : str) : Config :=
  mkConfig (lit "google") (lit "models/gemini-1.5-pro-latest") (lit "0.5") api_key
           (lit "0.95") (lit "chroma") db_path (lit "google") (lit "models/embedding-001").

End Notions.

(** Scripted collaborators whose key check, temporary directory and
    application construction may fail. *)
Definition scripted_sidebar (key_ok dir_ok app_ok : bool) (sc : Scenario)
  : Collaborators := {|
  World := unit;
  AppHandle := unit;
  TranscriptList := unit;
  Transcript := unit;
  Seconds := nat;
  api_list_transcripts := @api_list_transcripts (scripted sc);
  api_find_generated_transcript := @api_find_generated_transcript (scripted sc);
  api_find_transcript := @api_find_transcript (scripted sc);
  manually_created_keys := @manually_created_keys (scripted sc);
  generated_keys := @generated_keys (scripted sc);
  api_fetch := @api_fetch (scripted sc);
  api_add := @api_add (scripted sc);
  api_chat := @api_chat (scripted sc);
  api_configure := fun _ => reply key_ok tt "API key not valid";
  api_mkdtemp := reply dir_ok (lit "/tmp/tmpdb") "no space left";
  api_from_config := fun _ => reply app_ok tt "invalid configuration"
|}.

(** A session of [scripted_sidebar]. *)
Definition sidebar_session (key_ok dir_ok app_ok : bool) (sc : Scenario)
    (handle : option unit) (loaded : str) (history : list Message)
  : @St (scripted_sidebar key_ok dir_ok app_ok sc) :=
  @mkSt (scripted_sidebar key_ok dir_ok app_ok sc)
        (@mkSession (scripted_sidebar key_ok dir_ok app_ok sc) handle None loaded history)
        tt [] [].





(** The fetched track has no entry. *)
Definition silent_video : Scenario :=
  mkScenario true true true true [] true (Ok (RespStr (lit "Nothing is said."))).

(** The chat call answers with an object that has a [response] attribute. *)
Definition structured_answer : Scenario :=
  mkScenario true true true true [lit "hello"; lit "world"] true
             (Ok (RespObj (Some (lit "It says hello.")) (lit "<Response object>"))).

(** ** Facts about [startswith], [find] and [split] *)

Lemma split_loop_step c sep' s :
  split_loop c sep' s =
  match find (c :: sep') s with
  | Some i => firstn i s :: split_loop c sep' (skipn (i + length (c :: sep')) s)
  | None => [s]
  end.
Proof.
  rewrite split_loop_equation_1.
  destruct (inspect (find (c :: sep') s)) as [[i|] H]; cbn [split_loop_unfold_clause_1].
  all: now rewrite H.
Qed.

Lemma startswith_app p t : startswith p (p ++ t) = true.
Proof.
  induction p as [|a p IH]; simpl; [reflexivity|].
  now rewrite Ascii.eqb_refl.
Qed.

Lemma skipn_exact (x r : str) : skipn (length x) (x ++ r) = r.
Proof. now rewrite skipn_app, Nat.sub_diag, skipn_all2 by lia. Qed.

Lemma startswith_nth p s :
  startswith p s = true ->
  forall j, j < length p -> nth j s zero = nth j p zero.
Proof.
  revert s; induction p as [|a p IH]; intros [|b s]; simpl; try discriminate.
  - intros _ j Hj; lia.
  - intros _ j Hj; lia.
  - intros H j Hj. apply andb_true_iff in H as [Hab H].
    apply Ascii.eqb_eq in Hab. subst b.
    destruct j as [|j]; [reflexivity|]. apply IH; [assumption | lia].
Qed.

Lemma find_Some sub s i :
  find sub s = Some i ->
  i <= length s /\ startswith sub (skipn i s) = true.
Proof.
  revert i; induction s as [|b s IH]; intros i; cbn [find].
  - destruct (startswith sub []) eqn:E; [|discriminate].
    intros [= <-]. split; [lia | assumption].
  - destruct (startswith sub (b :: s)) eqn:E.
    + intros [= <-]. split; [lia | assumption].
    + destruct (find sub s) as [j|]; simpl; [|discriminate].
      intros [= <-]. destruct (IH j eq_refl) as [H1 H2].
      split; [lia | assumption].
Qed.

Lemma find_first sub s j :
  j <= length s -> startswith sub (skipn j s) = true ->
  exists i, find sub s = Some i /\ i <= j.
Proof.
  revert j; induction s as [|b s IH]; intros j Hj H; cbn [find].
  - assert (j = 0) by (simpl in Hj; lia). subst j. simpl in H. rewrite H.
    exists 0. split; [reflexivity | lia].
  - destruct (startswith sub (b :: s)) eqn:E.
    + exists 0. split; [reflexivity | lia].
    + destruct j as [|j]; [simpl in H; congruence|].
      simpl in H, Hj. destruct (IH j) as [i [Hi Hle]]; [lia | assumption |].
      rewrite Hi. exists (S i). split; [reflexivity | lia].
Qed.

Lemma find_None sub s j :
  find sub s = None -> j <= length s -> startswith sub (skipn j s) = false.
Proof.
  intros H Hj. destruct (startswith sub (skipn j s)) eqn:E; [|reflexivity].
  destruct (find_first sub s Hj E) as [i [Hi _]]. congruence.
Qed.

Lemma contains_true_iff sub s :
  contains sub s = true <-> exists a b, s = a ++ sub ++ b.
Proof.
  assert (P : forall p t, startswith p t = true -> exists b, t = p ++ b).
  { induction p as [|a p IH]; intros [|b t]; simpl; try discriminate.
    - intros _. now exists [].
    - intros _. now exists (b :: t).
    - intros H. apply andb_true_iff in H as [Hab H].
      apply Ascii.eqb_eq in Hab. subst b.
      destruct (IH _ H) as [r ->]. now exists r. }
  unfold contains. split.
  - destruct (find sub s) as [i|] eqn:E; [|discriminate]. intros _.
    apply find_Some in E as [Hi E]. apply P in E as [b Hb].
    exists (firstn i s), b. rewrite <- Hb. symmetry. apply firstn_skipn.
  - intros [a [b ->]].
    destruct (@find_first sub (a ++ sub ++ b) (length a)) as [i [Hi _]].
    + rewrite length_app. lia.
    + rewrite skipn_app, Nat.sub_diag, skipn_all2 by lia. simpl.
      apply startswith_app.
    + now rewrite Hi.
Qed.

Lemma contains_false_find sub s : contains sub s = false -> find sub s = None.
Proof. unfold contains. now destruct (find sub s). Qed.

Lemma split_loop_not_nil c sep' s : split_loop c sep' s <> [].
Proof. rewrite split_loop_step. destruct (find (c :: sep') s); discriminate. Qed.

Lemma last_default l : forall (z x y : str), last (z :: l) x = last (z :: l) y.
Proof.
  induction l as [|w l IH]; intros z x y; [reflexivity|].
  change (last (w :: l) x = last (w :: l) y). apply IH.
Qed.

Lemma last_item_cons x l : l <> [] -> last_item (x :: l) = last_item l.
Proof.
  destruct l as [|y l]; [congruence|]. intros _. unfold last_item. f_equal.
  destruct l as [|z l]; [reflexivity|].
  change (last (z :: l) x = last (z :: l) y). apply last_default.
Qed.

Lemma split_loop_none c sep' t :
  find (c :: sep') t = None -> split_loop c sep' t = [t].
Proof. intros H. rewrite split_loop_step. now rewrite H. Qed.

(** Once the search reaches an occurrence of the separator at a position
    where it is not in the middle of an earlier one, what comes before does
    not matter for the last piece. *)
Lemma split_loop_sync n : forall c sep' x t,
  length x <= n -> no_straddle (c :: sep') x t ->
  last_item (split_loop c sep' (x ++ (c :: sep') ++ t))
  = last_item (split_loop c sep' t).
Proof.
  induction n as [|n IH]; intros c sep' x t Hn NS.
  - destruct x; [|simpl in Hn; lia].
    change ([] ++ (c :: sep') ++ t) with ((c :: sep') ++ t).
    destruct (@find_first (c :: sep') ((c :: sep') ++ t) 0) as [i [Hi Hle]];
      [lia | apply startswith_app |].
    assert (i = 0) by lia. subst i.
    rewrite split_loop_step, Hi.
    rewrite last_item_cons by apply split_loop_not_nil.
    cbn [plus]. now rewrite skipn_exact.
  - set (sep := c :: sep') in *. set (s := x ++ sep ++ t).
    destruct (@find_first sep s (length x)) as [i [Hi Hle]].
    + unfold s. rewrite length_app. lia.
    + unfold s. rewrite skipn_exact. apply startswith_app.
    + rewrite split_loop_step. fold sep. fold s. rewrite Hi.
      rewrite last_item_cons by apply split_loop_not_nil.
      destruct (Nat.eq_dec i (length x)) as [->|Hne].
      * unfold s. rewrite Nat.add_comm, <- skipn_skipn.
        now rewrite !skipn_exact.
      * assert (Hi' : i < length x) by lia.
        apply find_Some in Hi as [_ Hst].
        assert (Hfit : i + length sep <= length x).
        { destruct (le_lt_dec (i + length sep) (length x)) as [L|L]; [exact L|].
          unfold s in Hst. rewrite (NS i Hi' L) in Hst. discriminate. }
        assert (Hsk : forall r, skipn (i + length sep) (x ++ r)
                                = skipn (i + length sep) x ++ r).
        { intros r. rewrite skipn_app.
          replace (i + length sep - length x) with 0 by lia. now rewrite skipn_0. }
        unfold s. rewrite Hsk.
        apply IH.
        -- rewrite length_skipn. unfold sep in *. simpl in *. lia.
        -- intros j Hj Hj'. rewrite length_skipn in Hj, Hj'.
           rewrite <- Hsk, skipn_skipn. fold sep in Hj'. apply NS; lia.
Qed.

Lemma sync_check_no_straddle m sep pre t :
  sync_check m sep = true -> no_straddle sep (pre ++ m) t.
Proof.
  intros Hc i Hi Hover.
  destruct (startswith sep (skipn i ((pre ++ m) ++ sep ++ t))) eqn:E; [|reflexivity].
  exfalso. pose proof (startswith_nth _ _ E) as N.
  set (x := pre ++ m) in *. set (k := length x - i).
  assert (Hk : 1 <= k < length sep) by (unfold k; lia).
  unfold sync_check in Hc. rewrite forallb_forall in Hc.
  assert (Hin : In k (seq 1 (length sep - 1))) by (apply in_seq; lia).
  apply Hc in Hin.
  assert (N0 : nth i x zero = nth 0 sep zero).
  { specialize (N 0 ltac:(lia)). rewrite nth_skipn, Nat.add_0_r in N.
    rewrite app_nth1 in N by lia. exact N. }
  assert (Nk : nth 0 sep zero = nth k sep zero).
  { specialize (N k ltac:(lia)). rewrite nth_skipn in N.
    replace (i + k) with (length x + 0) in N by (unfold k; lia).
    rewrite app_nth2_plus in N. rewrite app_nth1 in N by lia. exact N. }
  apply orb_true_iff in Hin as [H|H].
  - rewrite <- Nk, Ascii.eqb_refl in H. discriminate.
  - apply andb_true_iff in H as [Hkm H]. apply Nat.leb_le in Hkm.
    subst k x. rewrite length_app in *.
    rewrite app_nth2 in N0 by lia.
    replace (i - length pre) with (length m - (length pre + length m - i)) in N0 by lia.
    rewrite N0, Ascii.eqb_refl in H. discriminate.
Qed.

(** After a marker [m ++ sep] that passes [sync_check], when [sep] does not
    occur in what follows, the last piece of the split is what follows. *)
Lemma split_after_marker c sep' m pre t :
  sync_check m (c :: sep') = true ->
  contains (c :: sep') t = false ->
  last_item (split_loop c sep' (pre ++ m ++ (c :: sep') ++ t)) = Ok t.
Proof.
  intros Hc Hn. rewrite app_assoc.
  rewrite (@split_loop_sync (length (pre ++ m))); [| lia |].
  - rewrite split_loop_none by now apply contains_false_find. reflexivity.
  - now apply sync_check_no_straddle.
Qed.

(** Splitting at a one-character separator is [split_char]. *)
Lemma split_loop_char c s : split_loop c [] s = split_char c s.
Proof.
  induction s as [|x s IH].
  - rewrite split_loop_step. reflexivity.
  - rewrite split_loop_step. cbn [find startswith split_char].
    rewrite andb_true_r, (Ascii.eqb_sym c x).
    destruct (Ascii.eqb x c).
    + cbn. now rewrite IH.
    + rewrite <- IH, (split_loop_step c [] s).
      destruct (find [c] s) as [j|]; cbn [option_map]; [|reflexivity].
      cbn [firstn]. f_equal.
Qed.

Lemma split_char_first p c s :
  (forall x, p x = Ascii.eqb x c) ->
  first_item (split_char c s) = Ok (before p s).
Proof.
  intros Hp. destruct s as [|x s]; [reflexivity|].
  cbn [split_char before]. rewrite Hp.
  destruct (Ascii.eqb x c); [reflexivity|].
  revert x. induction s as [|y s IH]; intros x; [reflexivity|].
  cbn [split_char before]. rewrite Hp.
  destruct (Ascii.eqb y c); [reflexivity|].
  specialize (IH y). destruct (split_char c s) as [|h t]; cbn in *.
  - now inversion IH.
  - now inversion IH.
Qed.

Lemma split_char_length c s :
  (1 <? length (split_char c s)) = existsb (fun x => Ascii.eqb x c) s.
Proof.
  assert (N : forall t, split_char c t <> []).
  { intros [|y t]; cbn; [discriminate|].
    destruct (Ascii.eqb y c); [discriminate|].
    destruct (split_char c t); discriminate. }
  induction s as [|x s IH]; [reflexivity|].
  cbn [split_char existsb]. destruct (Ascii.eqb x c).
  - cbn. specialize (N s). destruct (split_char c s); [congruence | reflexivity].
  - rewrite orb_false_l, <- IH. specialize (N s).
    destruct (split_char c s); [congruence | reflexivity].
Qed.

Lemma before_param_sep s :
  before (fun x => Ascii.eqb x "&"%char) (before (fun x => Ascii.eqb x "?"%char) s)
  = before is_param_sep s.
Proof.
  induction s as [|x s IH]; [reflexivity|].
  cbn [before]. unfold is_param_sep at 1.
  destruct (Ascii.eqb x "?"%char) eqn:Q; [reflexivity|].
  cbn [before orb]. destruct (Ascii.eqb x "&"%char); [reflexivity|].
  now rewrite IH.
Qed.

Lemma before_app p id rest :
  forallb (fun x => negb (p x)) id = true ->
  match rest with [] => true | x :: _ => p x end = true ->
  before p (id ++ rest) = id.
Proof.
  intros Hid Hr. induction id as [|x id IH]; cbn [List.app before].
  - destruct rest as [|y r]; cbn [before]; [reflexivity|]. now rewrite Hr.
  - cbn [forallb] in Hid. apply andb_true_iff in Hid as [Hx Hid].
    apply negb_true_iff in Hx. rewrite Hx. now rewrite IH.
Qed.

(** ** Running the monad *)

Section Running.

Context {C : Collaborators}.

Lemma bind_lift_ok {A B} (r : result A) (a : A) (k : A -> M B) (s : St) :
  r = Ok a -> bind (lift r) k s = k a s.
Proof. intros ->. reflexivity. Qed.

Lemma split_char_ok c s : split [c] s = Ok (split_char c s).
Proof. unfold split. now rewrite split_loop_char. Qed.

(** [x.split("?")[0].split("&")[0]] is the text before the first [?] or [&]. *)
Lemma cut_params {B} (b : str) (k : str -> M B) (s : St) :
  bind (lift (split (lit "?") b)) (fun c =>
  bind (lift (first_item c)) (fun d =>
  bind (lift (split (lit "&") d)) (fun e =>
  bind (lift (first_item e)) k))) s
  = k (before is_param_sep b) s.
Proof.
  rewrite (bind_lift_ok _ _ (split_char_ok "?"%char b)).
  rewrite (bind_lift_ok _ _ (split_char_first _ _ b (fun x => eq_refl))).
  rewrite (bind_lift_ok _ _ (split_char_ok "&"%char _)).
  rewrite (bind_lift_ok _ _ (split_char_first _ _ _ (fun x => eq_refl))).
  now rewrite before_param_sep.
Qed.

(** [x.split("&")[0]] is the text before the first [&]. *)
Lemma cut_amp {B} (b : str) (k : str -> M B) (s : St) :
  bind (lift (split (lit "&") b)) (fun c => bind (lift (first_item c)) k) s
  = k (before (fun x => Ascii.eqb x "&"%char) b) s.
Proof.
  rewrite (bind_lift_ok _ _ (split_char_ok "&"%char b)).
  now rewrite (bind_lift_ok _ _ (split_char_first _ _ b (fun x => eq_refl))).
Qed.

Lemma cut_params_end (b : str) (s : St) :
  bind (lift (split (lit "?") b)) (fun c =>
  bind (lift (first_item c)) (fun d =>
  bind (lift (split (lit "&") d)) (fun e => lift (first_item e)))) s
  = (Ok (before is_param_sep b), s).
Proof.
  rewrite (bind_lift_ok _ _ (split_char_ok "?"%char b)).
  rewrite (bind_lift_ok _ _ (split_char_first _ _ b (fun x => eq_refl))).
  rewrite (bind_lift_ok _ _ (split_char_ok "&"%char _)).
  unfold lift. rewrite (split_char_first _ _ _ (fun x => eq_refl)).
  now rewrite before_param_sep.
Qed.

Lemma cut_amp_end (b : str) (s : St) :
  bind (lift (split (lit "&") b)) (fun c => lift (first_item c)) s
  = (Ok (before (fun x => Ascii.eqb x "&"%char) b), s).
Proof.
  rewrite (bind_lift_ok _ _ (split_char_ok "&"%char b)).
  unfold lift. now rewrite (split_char_first _ _ b (fun x => eq_refl)).
Qed.

Lemma last_item_ok (l : list str) : l <> [] -> last_item l = Ok (last l []).
Proof.
  destruct l as [|x l]; [congruence|]. intros _. unfold last_item. f_equal.
  destruct l as [|y l]; [reflexivity|].
  change (last (y :: l) x = last (y :: l) []). apply last_default.
Qed.

(** What the rule of a recognized shape computes: the text after the last
    piece boundary of its token, up to the first character it cuts at. *)
Lemma extract_rule (sh : shape) (url : str) :
  earlier_rules_miss sh url = true ->
  contains (marker sh) url = true ->
  exists c sep' b,
    token sh = c :: sep'
    /\ last_item (split_loop c sep' url) = Ok b
    /\ forall s : St, extract_video_id url s = (Ok (before (cuts sh) b), s).
Proof.
  intros He Hm. unfold extract_video_id.
  destruct sh; cbn [earlier_rules_miss] in He.
  - change (lit "youtube.com/watch?v=") with (marker WatchPage). rewrite Hm.
    exists "v"%char, (lit "="), (last (split_loop "v"%char (lit "=") url) []).
    assert (L := last_item_ok (@split_loop_not_nil "v"%char (lit "=") url)).
    repeat split; [exact L|]. intros s.
    rewrite (bind_lift_ok _ _ (eq_refl : split (lit "v=") url = Ok _)).
    rewrite (bind_lift_ok _ _ L).
    rewrite cut_amp_end. reflexivity.
  - apply negb_true_iff in He.
    change (lit "youtube.com/watch?v=") with (marker WatchPage). rewrite He.
    change (lit "youtube.com/shorts/") with (marker ShortsPath). rewrite Hm.
    exists "/"%char, (lit "shorts/"), (last (split_loop "/"%char (lit "shorts/") url) []).
    assert (L := last_item_ok (@split_loop_not_nil "/"%char (lit "shorts/") url)).
    repeat split; [exact L|]. intros s.
    rewrite (bind_lift_ok _ _ (eq_refl : split (lit "/shorts/") url = Ok _)).
    rewrite (bind_lift_ok _ _ L).
    rewrite cut_params_end. reflexivity.
  - apply andb_true_iff in He as [He1 He2].
    apply negb_true_iff in He1, He2.
    change (lit "youtube.com/watch?v=") with (marker WatchPage). rewrite He1.
    change (lit "youtube.com/shorts/") with (marker ShortsPath). rewrite He2.
    change (lit "youtu.be/") with (marker ShortLink). rewrite Hm.
    exists "y"%char, (lit "outu.be/"), (last (split_loop "y"%char (lit "outu.be/") url) []).
    assert (L := last_item_ok (@split_loop_not_nil "y"%char (lit "outu.be/") url)).
    repeat split; [exact L|]. intros s.
    rewrite (bind_lift_ok _ _ (eq_refl : split (lit "youtu.be/") url = Ok _)).
    rewrite (bind_lift_ok _ _ L).
    rewrite cut_params_end. reflexivity.
Qed.

(** What the fallback rule computes. *)
Lemma extract_fallback (url : str) (s : St) :
  unrecognized url = true ->
  extract_video_id url s =
  (if existsb (fun x => Ascii.eqb x "/"%char) url then fallback_rule url
   else Raise invalid_url, warned s).
Proof.
  unfold unrecognized. intros H.
  apply andb_true_iff in H as [H H3]. apply andb_true_iff in H as [H1 H2].
  apply negb_true_iff in H1, H2, H3.
  unfold extract_video_id.
  change (lit "youtube.com/watch?v=") with (marker WatchPage). rewrite H1.
  change (lit "youtube.com/shorts/") with (marker ShortsPath). rewrite H2.
  change (lit "youtu.be/") with (marker ShortLink). rewrite H3.
  unfold bind at 1. unfold st_warning, emit. fold (warned s).
  rewrite (bind_lift_ok _ _ (split_char_ok "/"%char url)).
  rewrite split_char_length.
  destruct (existsb (fun x => Ascii.eqb x "/"%char) url) eqn:E; [|reflexivity].
  assert (N : split_char "/"%char url <> []).
  { intros N. pose proof (split_char_length "/"%char url) as L.
    rewrite N, E in L. discriminate. }
  rewrite (bind_lift_ok _ _ (last_item_ok N)).
  rewrite cut_params. unfold fallback_rule, last_segment.
  destruct (length _ =? 11); reflexivity.
Qed.

End Running.

(** ** The URL identifier extractor *)

Section Extractor.

Context {C : Collaborators}.

Lemma sync_check_marker (sh : shape) : sync_check (marker_lead sh) (token sh) = true.
Proof. destruct sh; reflexivity. Qed.

Lemma recognized_shape (url : str) :
  unrecognized url = false ->
  exists sh, earlier_rules_miss sh url = true /\ contains (marker sh) url = true.
Proof.
  unfold unrecognized. intros H.
  destruct (contains (marker WatchPage) url) eqn:E1.
  - exists WatchPage. now split.
  - destruct (contains (marker ShortsPath) url) eqn:E2.
    + exists ShortsPath. cbn [earlier_rules_miss]. now rewrite E1, E2.
    + destruct (contains (marker ShortLink) url) eqn:E3; [|discriminate].
      exists ShortLink. cbn [earlier_rules_miss]. now rewrite E1, E2.
Qed.

(** X23.  What the three rules do get right.  For a URL
    [pre ++ marker ++ id ++ rest] of one of the three recognized shapes, to
    which no earlier rule applies, whose identifier holds no character the
    rule cuts at ([&] for the watch page, [?] or [&] for the two others),
    whose rest is empty or begins with such a character, and where the text
    the rule splits at ([v=], [/shorts/], [youtu.be/]) does not occur again
    after the marker, [extract_video_id] returns exactly the identifier and
    shows nothing.  The three examples of the specification are of this
    kind. *)
Theorem extract_video_id_recognized (sh : shape) (pre id rest : str) (s : St) :
  earlier_rules_miss sh (pre ++ marker sh ++ id ++ rest) = true ->
  contains (token sh) (id ++ rest) = false ->
  forallb (fun x => negb (cuts sh x)) id = true ->
  match rest with [] => true | x :: _ => cuts sh x end = true ->
  extract_video_id (pre ++ marker sh ++ id ++ rest) s = (Ok id, s).
Proof.
  intros He Hn Hid Hr.
  assert (Hm : contains (marker sh) (pre ++ marker sh ++ id ++ rest) = true).
  { apply contains_true_iff. now exists pre, (id ++ rest). }
  destruct (extract_rule sh _ He Hm) as (c & sep' & b & Ht & Hl & Hx).
  rewrite Hx. unfold marker in Hl. rewrite <- app_assoc, Ht in Hl.
  rewrite split_after_marker in Hl.
  - injection Hl as <-. now rewrite before_app.
  - rewrite <- Ht. apply sync_check_marker.
  - now rewrite <- Ht.
Qed.

(** X24.  The only exception [extract_video_id] raises is the [ValueError]
    of an invalid URL, and it raises it only for a URL that holds none of the
    three markers: for a URL with a marker it always returns, and indexing
    the pieces of a split never fails. *)
Theorem extract_video_id_raises_only_invalid (url : str) (s : St) (e : exn) :
  fst (extract_video_id url s) = Raise e ->
  unrecognized url = true /\ e = invalid_url.
Proof.
  destruct (unrecognized url) eqn:U.
  - rewrite extract_fallback by assumption. cbn [fst].
    unfold fallback_rule.
    destruct (existsb _ url); [destruct (length (last_segment url) =? 11)|];
      try discriminate; now intros [= <-].
  - destruct (recognized_shape url U) as (sh & He & Hm).
    destruct (extract_rule sh url He Hm) as (c & sep' & b & _ & _ & Hx).
    rewrite Hx. discriminate.
Qed.

(** C1.  The watch rule at a well-formed watch-page URL with a trailing
    parameter.  The URL is the marker, the identifier [dQw4w9WgXcQ], which
    holds no [?] or [&], and the parameter [&pv=1]; the rule splits the whole
    URL at every [v=] and keeps the last piece, so the value of the parameter
    is returned in place of the identifier.  At a URL whose identifier is
    followed by [?], the watch rule, which cuts at [&] only, returns the [?]
    and what follows with the identifier. *)
Theorem extract_video_id_trailing_parameter (s : St) :
  lit "https://www.youtube.com/watch?v=dQw4w9WgXcQ&pv=1"
  = lit "https://www." ++ marker WatchPage ++ lit "dQw4w9WgXcQ" ++ lit "&pv=1"
  /\ forallb (fun x => negb (is_param_sep x)) (lit "dQw4w9WgXcQ") = true
  /\ extract_video_id (lit "https://www.youtube.com/watch?v=dQw4w9WgXcQ&pv=1") s
     = (Ok (lit "1"), s)
  /\ lit "1" <> lit "dQw4w9WgXcQ"
  /\ extract_video_id (lit "https://www.youtube.com/watch?v=dQw4w9WgXcQ?t=30") s
     = (Ok (lit "dQw4w9WgXcQ?t=30"), s).
Proof. repeat split. discriminate. Qed.

(** C4.  The watch rule at a watch-page URL where nothing follows the marker:
    the empty string is returned, where the fallback rule of the same
    function raises the [ValueError] of an invalid URL for what is not an
    identifier. *)
Theorem extract_video_id_returns_empty (s : St) :
  extract_video_id (lit "https://www.youtube.com/watch?v=") s = (Ok [], s)
  /\ fst (extract_video_id (lit "https://example.com/") s) = Raise invalid_url.
Proof. split; reflexivity. Qed.

(** C5 (amended).  For a URL that holds none of the three markers and holds
    a path separator, [extract_video_id] returns the last segment, cut at its
    first [?] or [&], when that is exactly 11 characters long, and fails with
    the [ValueError] of an invalid URL otherwise; for a string with no path
    separator it fails. *)
Theorem extract_video_id_fallback (url : str) (s : St) :
  unrecognized url = true ->
  fst (extract_video_id url s) =
  if existsb (fun x => Ascii.eqb x "/"%char) url then fallback_rule url
  else Raise invalid_url.
Proof. intros U. now rewrite extract_fallback. Qed.

End Extractor.

(** The three examples of the specification. *)
Lemma extract_video_id_recognized_examples :
  extract_video_id (lit "https://www.youtube.com/watch?v=dQw4w9WgXcQ&t=30s") (fresh sunny)
  = (Ok (lit "dQw4w9WgXcQ"), fresh sunny)
  /\ extract_video_id (lit "https://youtu.be/dQw4w9WgXcQ") (fresh sunny)
     = (Ok (lit "dQw4w9WgXcQ"), fresh sunny)
  /\ extract_video_id (lit "https://www.youtube.com/shorts/abc12345678?feature=share")
                      (fresh sunny)
     = (Ok (lit "abc12345678"), fresh sunny).
Proof.
  split; [|split].
  - exact (@extract_video_id_recognized (scripted sunny) WatchPage
             (lit "https://www.") (lit "dQw4w9WgXcQ") (lit "&t=30s") (fresh sunny)
             eq_refl eq_refl eq_refl eq_refl).
  - exact (@extract_video_id_recognized (scripted sunny) ShortLink
             (lit "https://") (lit "dQw4w9WgXcQ") [] (fresh sunny)
             eq_refl eq_refl eq_refl eq_refl).
  - exact (@extract_video_id_recognized (scripted sunny) ShortsPath
             (lit "https://www.") (lit "abc12345678") (lit "?feature=share") (fresh sunny)
             eq_refl eq_refl eq_refl eq_refl).
Defined.

Lemma extract_video_id_raises_only_invalid_example :
  unrecognized (lit "not a link") = true.
Proof.
  exact (proj1 (@extract_video_id_raises_only_invalid (scripted sunny) (lit "not a link")
                  (fresh sunny) invalid_url eq_refl)).
Defined.

Lemma extract_video_id_fallback_examples :
  fst (extract_video_id (lit "https://example.com/dQw4w9WgXcQ?t=1") (fresh sunny))
  = Ok (lit "dQw4w9WgXcQ")
  /\ fst (extract_video_id (lit "https://example.com/video") (fresh sunny))
     = Raise invalid_url.
Proof.
  split.
  - exact (@extract_video_id_fallback (scripted sunny)
             (lit "https://example.com/dQw4w9WgXcQ?t=1") (fresh sunny) eq_refl).
  - exact (@extract_video_id_fallback (scripted sunny)
             (lit "https://example.com/video") (fresh sunny) eq_refl).
Defined.

(** C5 as stated fails: a string with no path separator is a single segment
    of 11 characters, and yet the extractor fails. *)
Lemma extract_video_id_no_separator :
  unrecognized (lit "dQw4w9WgXcQ") = true
  /\ fallback_rule (lit "dQw4w9WgXcQ") = Ok (lit "dQw4w9WgXcQ")
  /\ fst (extract_video_id (lit "dQw4w9WgXcQ") (fresh sunny)) = Raise invalid_url.
Proof. repeat split. Qed.

(** ** The transcript adapter and the handlers *)

Section Handlers.

Context {C : Collaborators}.

Lemma bind_ok {A B} (m : M A) (k : A -> M B) s a s' :
  m s = (Ok a, s') -> bind m k s = k a s'.
Proof. unfold bind. now intros ->. Qed.

Lemma bind_raise {A B} (m : M A) (k : A -> M B) s e s' :
  m s = (Raise e, s') -> bind m k s = (Raise e, s').
Proof. unfold bind. now intros ->. Qed.

Lemma try_ok {A} (m : M A) (h : exn -> M A) s a s' :
  m s = (Ok a, s') -> try_except m h s = (Ok a, s').
Proof. unfold try_except. now intros ->. Qed.

Lemma try_raise {A} (m : M A) (h : exn -> M A) s e s' :
  m s = (Raise e, s') -> try_except m h s = h e s'.
Proof. unfold try_except. now intros ->. Qed.

Lemma str_eqb_refl a : str_eqb a a = true.
Proof. unfold str_eqb. now destruct (list_eq_dec ascii_dec a a). Qed.

Lemma str_eqb_neq a b : a <> b -> str_eqb a b = false.
Proof. unfold str_eqb. now destruct (list_eq_dec ascii_dec a b). Qed.

Lemma str_eqb_eq a b : str_eqb a b = true -> a = b.
Proof. unfold str_eqb. now destruct (list_eq_dec ascii_dec a b). Qed.

(** [extract_video_id] only shows its warning: its result does not depend on
    the state, and the state is left as it was but for the warning. *)
Lemma extract_run (url : str) :
  exists r, forall s : St,
    extract_video_id url s = (r, if unrecognized url then warned s else s).
Proof.
  destruct (unrecognized url) eqn:U.
  - eexists. intros s. now apply extract_fallback.
  - destruct (recognized_shape url U) as (sh & He & Hm).
    destruct (extract_rule sh url He Hm) as (c & sep' & b & _ & _ & Hx).
    eexists. exact Hx.
Qed.

Lemma extracted_frame url s :
  session_state (extracted url s) = session_state s
  /\ world (extracted url s) = world s
  /\ calls (extracted url s) = calls s.
Proof. unfold extracted. now destruct (unrecognized url). Qed.

Lemma extract_fst url s s' r :
  fst (extract_video_id url s) = r -> extract_video_id url s' = (r, extracted url s').
Proof.
  destruct (extract_run url) as [r' H]. rewrite (H s). cbn [fst]. intros <-. apply H.
Qed.

Ltac run :=
  cbn [world session_state ui calls option_map transcript_result title_of
       no_transcript app db_path current_video_url messages fst snd].

Ltac acquired o Fs :=
  exists o; eexists;
  split; [ eauto using acquisition, english_attempt, any_attempt
         | split; [reflexivity | exact Fs] ].

(** [fetch_video_data] never raises: it returns what the outcome of the
    acquisition calls for, and leaves the session state as it was. *)
Lemma fetch_video_data_run (url : str) (s : St) :
  exists o s',
    acquisition url s o
    /\ fetch_video_data url s = (Ok (transcript_result o), s')
    /\ session_state s' = session_state s.
Proof.
  destruct (extract_video_id url s) as [r s1] eqn:E.
  assert (E1 : fst (extract_video_id url s) = r) by now rewrite E.
  pose proof (extract_fst url s s E1) as E2. rewrite E in E2. injection E2 as ->.
  destruct (extracted_frame url s) as (Fs & Fw & Fc).
  unfold fetch_video_data, try_except, bind. rewrite E.
  destruct r as [video_id|e]; [|acquired (@None (str * list Entry)) Fs].
  unfold external at 1. rewrite Fw.
  destruct (api_list_transcripts video_id (world s)) as [[tl|e] w1] eqn:L;
    [|acquired (@None (str * list Entry)) Fs].
  unfold external, st_warning, st_error, emit, ret. run.
  unfold lift.
  destruct (api_find_generated_transcript tl [lit "en"] w1) as [[t|e] w2] eqn:G; run.
  - destruct (api_fetch t w2) as [[entries|e] w3] eqn:F; run.
    + acquired (Some (video_id, entries)) Fs.
    + destruct (manually_created_keys tl) as [manual|e1] eqn:MK; run;
        [|acquired (option_map (pair video_id) (@None (list Entry))) Fs].
      destruct (generated_keys tl) as [generated|e2] eqn:GK; run;
        [|acquired (option_map (pair video_id) (@None (list Entry))) Fs].
      destruct (api_find_transcript tl (keys_union manual generated) w3)
        as [[t'|e'] w4] eqn:A; run.
      * destruct (api_fetch t' w4) as [[entries|e'] w5] eqn:F'; run.
        -- acquired (option_map (pair video_id) (Some entries)) Fs.
        -- acquired (option_map (pair video_id) (@None (list Entry))) Fs.
      * acquired (option_map (pair video_id) (@None (list Entry))) Fs.
  - destruct (manually_created_keys tl) as [manual|e1] eqn:MK; run;
      [|acquired (option_map (pair video_id) (@None (list Entry))) Fs].
    destruct (generated_keys tl) as [generated|e2] eqn:GK; run;
      [|acquired (option_map (pair video_id) (@None (list Entry))) Fs].
    destruct (api_find_transcript tl (keys_union manual generated) w2)
      as [[t'|e'] w4] eqn:A; run.
    + destruct (api_fetch t' w4) as [[entries|e'] w5] eqn:F'; run.
      * acquired (option_map (pair video_id) (Some entries)) Fs.
      * acquired (option_map (pair video_id) (@None (list Entry))) Fs.
    + acquired (option_map (pair video_id) (@None (list Entry))) Fs.
Qed.

(** The run of [fetch_video_data] when the English track is found and
    fetched. *)
Lemma fetch_video_data_english url s video_id tl w1 t w2 entries w3 :
  fst (extract_video_id url s) = Ok video_id ->
  api_list_transcripts video_id (world s) = (Ok tl, w1) ->
  api_find_generated_transcript tl [lit "en"] w1 = (Ok t, w2) ->
  api_fetch t w2 = (Ok entries, w3) ->
  fetch_video_data url s =
  (Ok (title_of video_id, join (lit " ") (map entry_text entries)),
   mkSt (session_state s) w3 (ui (extracted url s))
        (calls s ++ [CallListTranscripts video_id; CallFindGenerated [lit "en"]; CallFetch])).
Proof.
  intros E L G F. apply (extract_fst url s s) in E.
  destruct (extracted_frame url s) as (Fs & Fw & Fc).
  unfold fetch_video_data, try_except, bind. rewrite E.
  unfold external. rewrite Fw, L. run. rewrite G. run. rewrite F.
  unfold ret. rewrite Fs, Fc, <- !app_assoc. reflexivity.
Qed.

Lemma show_messages_run (l : list Message) (s : St) :
  show_messages l s =
  (Ok tt, mkSt (session_state s) (world s)
               (ui s ++ map (fun m => UiChatMarkdown (role m) (content m)) l)
               (calls s)).
Proof.
  revert s; induction l as [|m l IH]; intros s; cbn [show_messages map].
  - unfold ret. rewrite app_nil_r. now destruct s.
  - unfold bind, emit. rewrite IH. run. now rewrite <- app_assoc.
Qed.

(** A chat submission while a video is loaded: one call to [app.chat], and two
    turns appended whatever the call does. *)
Lemma chat_interface_run (s : St) (h : AppHandle) (prompt : str) :
  truthy (current_video_url (session_state s)) = true ->
  app (session_state s) = Some h ->
  truthy prompt = true ->
  exists evs,
    chat_interface (Some prompt) s =
    (Ok tt,
     mkSt (with_turns (session_state s) prompt
                      (full_response_of (fst (api_chat h prompt (world s)))))
          (snd (api_chat h prompt (world s)))
          (ui s ++ evs)
          (calls s ++ [CallChat prompt])).
Proof.
  intros Hu Ha Hp. unfold chat_interface.
  unfold bind at 1. unfold get_session at 1. rewrite Hu, Ha, Hp. cbn [negb is_some].
  unfold bind at 1. unfold st_info, emit at 1.
  unfold bind at 1. rewrite show_messages_run.
  unfold with_app, append_message, st_spinner.
  unfold put_session, get_session, emit, try_except, external, bind, ret, raise.
  run. unfold with_turns. rewrite Ha. run.
  destruct (api_chat h prompt (world s)) as [[response|e] w]; run;
    eexists; rewrite <- !app_assoc; cbn [List.app]; reflexivity.
Qed.

Lemma fetch_video_data_session url s r s' :
  fetch_video_data url s = (r, s') -> session_state s' = session_state s.
Proof.
  destruct (fetch_video_data_run url s) as (o & s2 & _ & H & Hs).
  rewrite H. now intros [= _ <-].
Qed.

(** The run of the body of the button for a new URL, from what
    [fetch_video_data] returned. *)
Lemma load_video_run (s : St) (h : AppHandle) (url title transcript : str) (s2 : St) :
  app (session_state s) = Some h ->
  truthy url = true ->
  url <> current_video_url (session_state s) ->
  fetch_video_data url (spinning url s) = (Ok (title, transcript), s2) ->
  load_video url s =
  if str_eqb transcript no_transcript
  then (Ok tt, mkSt (session_state s) (world s2)
                    (ui s2 ++ [no_transcript_notice title]) (calls s2))
  else
    match api_add h transcript (lit "text") title url (world s2) with
    | (Ok _, w) =>
      (Ok tt,
       mkSt (mkSession (Some h) (db_path (session_state s)) url [])
            w (ui s2 ++ [added_notice title])
            (calls s2 ++ [CallAdd transcript (lit "text") title url]))
    | (Raise e, w) =>
      (Ok tt,
       mkSt (session_state s) w (ui s2 ++ [failure_notice e])
            (calls s2 ++ [CallAdd transcript (lit "text") title url]))
    end.
Proof.
  intros Ha Hu Hn Hf.
  pose proof (fetch_video_data_session _ _ Hf) as Hs. cbn [spinning session_state] in Hs.
  unfold load_video. unfold bind at 1. unfold get_session at 1.
  rewrite Ha, Hu, (str_eqb_neq Hn). cbn [is_some andb negb].
  unfold bind at 1. unfold st_spinner, emit at 1. fold (spinning url s).
  unfold try_except. unfold bind at 1. rewrite Hf.
  change (lit "No transcript available for this video.") with no_transcript.
  destruct (str_eqb transcript no_transcript); cbn [negb].
  - unfold st_warning, emit. unfold no_transcript_notice. now rewrite Hs.
  - unfold with_app, set_current_video_url, set_messages, st_success, st_error.
    unfold put_session, get_session, emit, external, bind, ret, raise.
    run. rewrite Hs, Ha.
    destruct (api_add h transcript (lit "text") title url (world s2)) as [[[]|e] w];
      run; rewrite ?Hs, ?Ha.
    + reflexivity.
    + unfold failure_notice. destruct (is_ValueError e); reflexivity.
Qed.

(** The sidebar never raises, does not touch the loaded video or the
    history, and whenever it leaves a key that enables the "Load Video"
    button it leaves an application handle: the body of the button only
    runs in a session that has one. *)
Lemma sidebar_configuration_handle (google_api_key : str) (s : St) :
  exists k s1,
    sidebar_configuration google_api_key s = (Ok k, s1)
    /\ current_video_url (session_state s1) = current_video_url (session_state s)
    /\ messages (session_state s1) = messages (session_state s)
    /\ (match k with Some k' => truthy k' | None => false end = true ->
        is_some (app (session_state s1)) = true).
Proof.
  unfold sidebar_configuration.
  destruct (truthy google_api_key) eqn:T.
  2:{ do 2 eexists. split; [reflexivity|]. repeat split. cbn beta iota. congruence. }
  unfold embedchain_bot, set_app, set_db_path, st_success, st_spinner, st_info, st_error.
  unfold try_except, external, put_session, get_session, emit, bind, ret.
  destruct (api_configure google_api_key (world s)) as [[[]|e] w1]; run.
  2:{ do 2 eexists. split; [reflexivity|]. run. repeat split. discriminate. }
  destruct (app (session_state s)) as [h|] eqn:Ha; cbn [is_some negb]; run.
  { do 2 eexists. split; [reflexivity|]. run. rewrite Ha. now repeat split. }
  destruct (api_mkdtemp w1) as [[d|e] w2]; run.
  2:{ do 2 eexists. split; [reflexivity|]. run. repeat split. discriminate. }
  match goal with
  | |- context [api_from_config ?c w2] =>
    destruct (api_from_config c w2) as [[a|e] w3]; run
  end.
  - do 2 eexists. split; [reflexivity|]. run. now repeat split.
  - do 2 eexists. split; [reflexivity|]. run. repeat split. discriminate.
Qed.

(** A disabled button is not pressed; an enabled one that is pressed runs its
    body. *)
Lemma load_video_button_run (key : option str) (url : str) (pressed : bool) (s : St) :
  load_video_button key url pressed s =
  if pressed && match key with Some k => truthy k | None => false end && truthy url
  then load_video url s else (Ok tt, s).
Proof.
  unfold load_video_button.
  destruct pressed, (match key with Some k => truthy k | None => false end), (truthy url);
    reflexivity.
Qed.


(** C2.  When the submitted URL is the one that is loaded, the body of the
    "Load Video" button leaves the session state (the conversation history,
    the loaded video, the application handle) and the world as they are,
    calls no collaborator (the knowledge base is not asked to add the
    document again), and shows one informational notice. *)
Theorem load_video_same_url (s : St) (h : AppHandle) (url : str) :
  app (session_state s) = Some h ->
  url = current_video_url (session_state s) ->
  load_video url s =
  (Ok tt, mkSt (session_state s) (world s)
               (ui s ++ [UiInfo (lit "This video is already loaded.")])
               (calls s)).
Proof.
  intros Ha ->. unfold load_video. unfold bind at 1. unfold get_session at 1.
  rewrite Ha, str_eqb_refl. cbn [is_some negb andb].
  rewrite andb_false_r. reflexivity.
Qed.

(** C3.  When a URL other than the loaded one is loaded with success (the
    transcript is available and the knowledge base accepts it), the
    conversation history is empty afterwards and the loaded video is the new
    URL; the next chat submission starts the history anew: it holds the new
    user turn and the assistant turn, nothing of the earlier conversation. *)
Theorem load_video_replaces (s : St) (h : AppHandle) (url title transcript : str)
    (s2 : St) (w3 : World) :
  app (session_state s) = Some h ->
  truthy url = true ->
  url <> current_video_url (session_state s) ->
  fetch_video_data url (spinning url s) = (Ok (title, transcript), s2) ->
  transcript <> no_transcript ->
  api_add h transcript (lit "text") title url (world s2) = (Ok tt, w3) ->
  fst (load_video url s) = Ok tt
  /\ messages (session_state (snd (load_video url s))) = []
  /\ current_video_url (session_state (snd (load_video url s))) = url
  /\ app (session_state (snd (load_video url s))) = Some h
  /\ calls (snd (load_video url s)) = calls s2 ++ [CallAdd transcript (lit "text") title url]
  /\ forall prompt, truthy prompt = true ->
       exists answer,
         messages (session_state (snd (chat_interface (Some prompt) (snd (load_video url s)))))
         = [mkMessage (lit "user") prompt; mkMessage (lit "assistant") answer].
Proof.
  intros Ha Hu Hn Hf Ht Hadd.
  rewrite (load_video_run _ Ha Hu Hn Hf), (str_eqb_neq Ht), Hadd. run.
  repeat split. intros prompt Hp.
  edestruct (@chat_interface_run
               (mkSt (mkSession (Some h) (db_path (session_state s)) url []) w3
                     (ui s2 ++ [added_notice title])
                     (calls s2 ++ [CallAdd transcript (lit "text") title url]))
               h prompt) as [evs Hc]; [exact Hu | reflexivity | exact Hp |].
  rewrite Hc. run. eexists. reflexivity.
Qed.

(** C6.  When the knowledge base fails to add the document, the session
    state is left as it was: the loaded video is the one before the attempt
    and the conversation history is not cleared; the failure is shown. *)
Theorem load_video_add_fails (s : St) (h : AppHandle) (url title transcript : str)
    (s2 : St) (e : exn) (w3 : World) :
  app (session_state s) = Some h ->
  truthy url = true ->
  url <> current_video_url (session_state s) ->
  fetch_video_data url (spinning url s) = (Ok (title, transcript), s2) ->
  transcript <> no_transcript ->
  api_add h transcript (lit "text") title url (world s2) = (Raise e, w3) ->
  load_video url s =
  (Ok tt, mkSt (session_state s) w3 (ui s2 ++ [failure_notice e])
               (calls s2 ++ [CallAdd transcript (lit "text") title url])).
Proof.
  intros Ha Hu Hn Hf Ht Hadd.
  now rewrite (load_video_run _ Ha Hu Hn Hf), (str_eqb_neq Ht), Hadd.
Qed.

(** C10.  Whether a transcript is available is decided by comparing the
    returned text with ["No transcript available for this video."].  When
    the acquisition succeeds and the texts of the fetched entries, joined,
    are that very string, the body of the button takes the transcript for
    unavailable: the knowledge base is not called, the session state does not
    change, and the notice names the title made for the video. *)
Theorem load_video_sentinel_transcript (s : St) (h : AppHandle) (url video_id : str)
    (tl : TranscriptList) (w1 : World) (t : Transcript) (w2 : World)
    (entries : list Entry) (w3 : World) :
  app (session_state s) = Some h ->
  truthy url = true ->
  url <> current_video_url (session_state s) ->
  fst (extract_video_id url s) = Ok video_id ->
  api_list_transcripts video_id (world s) = (Ok tl, w1) ->
  api_find_generated_transcript tl [lit "en"] w1 = (Ok t, w2) ->
  api_fetch t w2 = (Ok entries, w3) ->
  join (lit " ") (map entry_text entries) = no_transcript ->
  load_video url s =
  (Ok tt,
   mkSt (session_state s) w3
        (ui (extracted url (spinning url s)) ++ [no_transcript_notice (title_of video_id)])
        (calls s ++ [CallListTranscripts video_id; CallFindGenerated [lit "en"]; CallFetch])).
Proof.
  intros Ha Hu Hn E L G F J.
  assert (E' : fst (extract_video_id url (spinning url s)) = Ok video_id).
  { now rewrite (extract_fst url s (spinning url s) E). }
  pose proof (@fetch_video_data_english url (spinning url s) video_id tl w1 t w2
                entries w3 E' L G F) as Hf.
  rewrite J in Hf.
  rewrite (load_video_run _ Ha Hu Hn Hf), str_eqb_refl. reflexivity.
Qed.

(** C7.  When [app.chat] raises during a chat submission, the history grows
    by the user turn and by one assistant turn whose content is the error
    message made from the exception; nothing else of the history, of the
    loaded video or of the application handle changes. *)
Theorem chat_interface_query_error (s : St) (h : AppHandle) (prompt : str)
    (e : exn) (w : World) :
  truthy (current_video_url (session_state s)) = true ->
  app (session_state s) = Some h ->
  truthy prompt = true ->
  api_chat h prompt (world s) = (Raise e, w) ->
  fst (chat_interface (Some prompt) s) = Ok tt
  /\ messages (session_state (snd (chat_interface (Some prompt) s)))
     = messages (session_state s)
       ++ [mkMessage (lit "user") prompt;
           mkMessage (lit "assistant") (lit "Sorry, an error occurred: " ++ exn_str e)]
  /\ current_video_url (session_state (snd (chat_interface (Some prompt) s)))
     = current_video_url (session_state s)
  /\ app (session_state (snd (chat_interface (Some prompt) s))) = app (session_state s)
  /\ db_path (session_state (snd (chat_interface (Some prompt) s)))
     = db_path (session_state s).
Proof.
  intros Hu Ha Hp Hc.
  destruct (@chat_interface_run s h prompt Hu Ha Hp) as [evs H].
  rewrite H, Hc. run. now repeat split.
Qed.

(** C8.  While no video is loaded (the current video URL is empty) or there
    is no application handle, a chat submission goes nowhere: no collaborator
    is called, the session state and the world are unchanged, no turn is
    appended; one notice is shown. *)
Theorem chat_interface_rejects (s : St) (chat_input : option str) :
  current_video_url (session_state s) = [] \/ app (session_state s) = None ->
  exists ev,
    chat_interface chat_input s =
    (Ok tt, mkSt (session_state s) (world s) (ui s ++ [ev]) (calls s)).
Proof.
  intros H. unfold chat_interface. unfold bind at 1. unfold get_session at 1.
  destruct (truthy (current_video_url (session_state s))) eqn:T; cbn [negb].
  - destruct H as [H|H]; [rewrite H in T; discriminate|].
    rewrite H. cbn [is_some negb]. eexists. reflexivity.
  - eexists. reflexivity.
Qed.

End Handlers.

(** ** Examples with scripted collaborators *)

(** [video_b] is loaded, then submitted again. *)
Lemma load_video_same_url_example :
  current_video_url
    (session_state (snd (load_video video_b (session_of sunny video_a earlier_turns))))
  = video_b
  /\ load_video video_b (snd (load_video video_b (session_of sunny video_a earlier_turns)))
     = (Ok tt,
        @mkSt (scripted sunny)
              (session_state (snd (load_video video_b (session_of sunny video_a earlier_turns))))
              tt
              (ui (snd (load_video video_b (session_of sunny video_a earlier_turns)))
               ++ [UiInfo (lit "This video is already loaded.")])
              (calls (snd (load_video video_b (session_of sunny video_a earlier_turns))))).
Proof.
  split; [reflexivity|].
  exact (@load_video_same_url (scripted sunny)
           (snd (load_video video_b (session_of sunny video_a earlier_turns)))
           tt video_b eq_refl eq_refl).
Defined.

Lemma load_video_replaces_example :
  messages (session_state (snd (load_video video_b (session_of sunny video_a earlier_turns))))
  = []
  /\ current_video_url
       (session_state (snd (load_video video_b (session_of sunny video_a earlier_turns))))
     = video_b.
Proof.
  edestruct (@load_video_replaces (scripted sunny)
               (session_of sunny video_a earlier_turns) tt video_b)
    as (_ & H1 & H2 & _);
    [ reflexivity | reflexivity | discriminate | vm_compute; reflexivity
    | discriminate | reflexivity | ].
  split; [exact H1 | exact H2].
Defined.

Lemma load_video_add_fails_example :
  session_state (snd (load_video video_b (session_of add_refused video_a earlier_turns)))
  = session_state (session_of add_refused video_a earlier_turns).
Proof.
  erewrite (@load_video_add_fails (scripted add_refused)
              (session_of add_refused video_a earlier_turns) tt video_b);
    [ reflexivity | reflexivity | reflexivity | discriminate | vm_compute; reflexivity
    | discriminate | reflexivity ].
Defined.

Lemma load_video_sentinel_transcript_example :
  session_state (snd (load_video video_b (session_of says_sentinel video_a earlier_turns)))
  = session_state (session_of says_sentinel video_a earlier_turns)
  /\ calls (snd (load_video video_b (session_of says_sentinel video_a earlier_turns)))
     = [CallListTranscripts (lit "dQw4w9WgXcQ"); CallFindGenerated [lit "en"]; CallFetch].
Proof.
  erewrite (@load_video_sentinel_transcript (scripted says_sentinel)
              (session_of says_sentinel video_a earlier_turns) tt video_b);
    [ split; reflexivity | reflexivity | reflexivity | discriminate
    | reflexivity | reflexivity | reflexivity | reflexivity | reflexivity ].
Defined.

Lemma chat_interface_query_error_example :
  messages (session_state
              (snd (chat_interface (Some (lit "What is said?"))
                                   (session_of chat_down video_a earlier_turns))))
  = earlier_turns
    ++ [mkMessage (lit "user") (lit "What is said?");
        mkMessage (lit "assistant") (lit "Sorry, an error occurred: rate limit")].
Proof.
  edestruct (@chat_interface_query_error (scripted chat_down)
               (session_of chat_down video_a earlier_turns) tt (lit "What is said?"))
    as (_ & H & _); [reflexivity | reflexivity | reflexivity | reflexivity |].
  exact H.
Defined.

Lemma chat_interface_rejects_example :
  exists ev,
    chat_interface (Some (lit "What is said?")) (fresh sunny)
    = (Ok tt, @mkSt (scripted sunny) (session_state (fresh sunny)) tt [ev] []).
Proof.
  exact (@chat_interface_rejects (scripted sunny) (fresh sunny)
           (Some (lit "What is said?")) (or_introl eq_refl)).
Defined.



(** ** More on the URL identifier extractor *)

Lemma before_prefix p s : exists r, s = before p s ++ r.
Proof.
  induction s as [|x s [r IH]]; cbn [before].
  - now exists [].
  - destruct (p x).
    + now exists (x :: s).
    + exists r. cbn [List.app]. now rewrite <- IH.
Qed.

Lemma before_clean p s : forallb (fun x => negb (p x)) (before p s) = true.
Proof.
  induction s as [|x s IH]; cbn [before]; [reflexivity|].
  destruct (p x) eqn:E; [reflexivity|].
  cbn [forallb]. now rewrite E, IH.
Qed.

(** The last piece of a split is the end of the string. *)
Lemma split_loop_last_suffix n : forall c sep' s b,
  length s <= n ->
  last_item (split_loop c sep' s) = Ok b -> exists a, s = a ++ b.
Proof.
  induction n as [|n IH]; intros c sep' s b Hn; rewrite split_loop_step.
  - destruct s; [|simpl in Hn; lia]. cbn [find startswith].
    intros [= <-]. now exists [].
  - destruct (find (c :: sep') s) as [i|] eqn:F.
    + rewrite last_item_cons by apply split_loop_not_nil. intros H.
      apply IH in H.
      * destruct H as [a Ha].
        exists (firstn (i + length (c :: sep')) s ++ a).
        rewrite <- app_assoc, <- Ha. symmetry. apply firstn_skipn.
      * rewrite length_skipn. simpl. lia.
    + intros [= <-]. now exists [].
Qed.

Lemma split_char_app c a b :
  split_char c (a ++ c :: b) = split_char c a ++ split_char c b.
Proof.
  induction a as [|x a IH]; cbn [List.app split_char].
  - now rewrite Ascii.eqb_refl.
  - rewrite IH. destruct (Ascii.eqb x c); [reflexivity|].
    assert (N : split_char c a <> []).
    { rewrite <- split_loop_char. apply split_loop_not_nil. }
    destruct (split_char c a); [congruence | reflexivity].
Qed.

Lemma split_char_none c t :
  existsb (fun x => Ascii.eqb x c) t = false -> split_char c t = [t].
Proof.
  induction t as [|x t IH]; cbn [existsb split_char]; [reflexivity|].
  intros H. apply orb_false_iff in H as [Hx Ht]. now rewrite Hx, IH.
Qed.

Section ExtractorMore.

Context {C : Collaborators}.

(** X1.  [extract_video_id] does nothing but show the warning of its fallback
    rule: what it returns depends on the URL alone, and the state it leaves
    is the state it found, with that warning added exactly when the URL holds
    none of the three markers.  The session state, the world and the record
    of calls are never touched. *)
Theorem extract_video_id_effects (url : str) :
  exists r, forall s : St,
    extract_video_id url s =
    (r, mkSt (session_state s) (world s)
             (ui s ++ if unrecognized url
                      then [UiWarning (lit "Could not parse YouTube URL format reliably. Attempting extraction...")]
                      else [])
             (calls s)).
Proof.
  destruct (extract_run url) as [r H]. exists r. intros s. rewrite H.
  destruct (unrecognized url); [reflexivity|].
  rewrite app_nil_r. now destruct s.
Qed.

(** X2.  An identifier [extract_video_id] returns is a piece of the URL as it
    stands: the URL is some text, the identifier, and some text. *)
Theorem extract_video_id_substring (url id : str) (s : St) :
  fst (extract_video_id url s) = Ok id -> exists a b, url = a ++ id ++ b.
Proof.
  intros H.
  assert (P : forall p t, last_item (split_loop "/"%char [] url) = Ok t \/
                          (exists c sep', last_item (split_loop c sep' url) = Ok t) ->
                          id = before p t -> exists a b, url = a ++ id ++ b).
  { intros p t Ht ->.
    assert (S : exists a, url = a ++ t).
    { destruct Ht as [Ht | (c & sep' & Ht)];
        eapply split_loop_last_suffix; [reflexivity | exact Ht | reflexivity | exact Ht]. }
    destruct S as [a ->]. destruct (before_prefix p t) as [r Hr].
    exists a, r. now rewrite <- Hr. }
  destruct (unrecognized url) eqn:U.
  - rewrite extract_fallback in H by assumption. cbn [fst] in H.
    destruct (existsb _ url) eqn:E; [|discriminate].
    unfold fallback_rule in H. destruct (length (last_segment url) =? 11); [|discriminate].
    injection H as <-. unfold last_segment.
    apply (P is_param_sep (last (split_char "/"%char url) [])); [|reflexivity].
    left. rewrite split_loop_char. apply last_item_ok.
    intros N. pose proof (split_char_length "/"%char url) as L.
    rewrite N, E in L. discriminate.
  - destruct (recognized_shape url U) as (sh & He & Hm).
    destruct (extract_rule sh url He Hm) as (c & sep' & b & _ & Hl & Hx).
    rewrite Hx in H. injection H as <-.
    apply (P (cuts sh) b); [|reflexivity]. right. now exists c, sep'.
Qed.

(** X3.  An identifier [extract_video_id] returns never holds an [&]; unless
    the URL holds the watch-page marker it holds no [?] either. *)
Theorem extract_video_id_clean (url id : str) (s : St) :
  fst (extract_video_id url s) = Ok id ->
  existsb (fun x => Ascii.eqb x "&"%char) id = false
  /\ (contains (marker WatchPage) url = false ->
      existsb (fun x => Ascii.eqb x "?"%char) id = false).
Proof.
  intros H.
  assert (Q : forall t, forallb (fun x => negb (is_param_sep x)) t = true ->
                        existsb (fun x => Ascii.eqb x "&"%char) t = false
                        /\ existsb (fun x => Ascii.eqb x "?"%char) t = false).
  { induction t as [|x t IH]; cbn [forallb existsb]; [now split|].
    intros F. apply andb_true_iff in F as [Fx Ft]. destruct (IH Ft) as [I1 I2].
    apply negb_true_iff in Fx. unfold is_param_sep in Fx.
    apply orb_false_iff in Fx as [F1 F2]. now rewrite F1, F2, I1, I2. }
  assert (A : forall t, forallb (fun x => negb (Ascii.eqb x "&"%char)) t = true ->
                        existsb (fun x => Ascii.eqb x "&"%char) t = false).
  { induction t as [|x t IH]; cbn [forallb existsb]; [reflexivity|].
    intros F. apply andb_true_iff in F as [Fx Ft]. apply negb_true_iff in Fx.
    now rewrite Fx, IH. }
  destruct (unrecognized url) eqn:U.
  - rewrite extract_fallback in H by assumption. cbn [fst] in H.
    destruct (existsb _ url); [|discriminate].
    unfold fallback_rule in H. destruct (length (last_segment url) =? 11); [|discriminate].
    injection H as <-. unfold last_segment.
    destruct (Q _ (before_clean is_param_sep (last (split_char "/"%char url) []))).
    now split.
  - destruct (recognized_shape url U) as (sh & He & Hm).
    destruct (extract_rule sh url He Hm) as (c & sep' & b & _ & _ & Hx).
    rewrite Hx in H. injection H as <-.
    pose proof (before_clean (cuts sh) b) as B.
    destruct sh; cbn [cuts] in B.
    + split; [now apply A | intros W; congruence].
    + destruct (Q _ B). now split.
    + destruct (Q _ B). now split.
Qed.

(** X4.  For a URL [pre/seg] followed by nothing or by parameters, that holds
    none of the three markers (an embed link, say), where [seg] holds no [/],
    [?] or [&] and the parameters hold no [/], [extract_video_id] returns
    [seg] when it is 11 characters long and fails with the [ValueError] of an
    invalid URL when it is not. *)
Theorem extract_video_id_last_segment (pre seg q : str) (s : St) :
  unrecognized (pre ++ "/"%char :: seg ++ q) = true ->
  forallb (fun x => negb (is_param_sep x)) seg = true ->
  existsb (fun x => Ascii.eqb x "/"%char) (seg ++ q) = false ->
  match q with [] => true | x :: _ => is_param_sep x end = true ->
  fst (extract_video_id (pre ++ "/"%char :: seg ++ q) s)
  = if length seg =? 11 then Ok seg else Raise invalid_url.
Proof.
  intros U Hseg Hslash Hq. rewrite extract_fallback by assumption. cbn [fst].
  rewrite existsb_app. cbn [existsb]. rewrite Ascii.eqb_refl, orb_true_r.
  unfold fallback_rule, last_segment.
  rewrite split_char_app, (split_char_none _ _ Hslash), last_last.
  now rewrite before_app.
Qed.

End ExtractorMore.

Lemma extract_video_id_substring_example :
  exists a b, lit "https://www.youtube.com/watch?v=dQw4w9WgXcQ&t=30s"
              = a ++ lit "dQw4w9WgXcQ" ++ b.
Proof.
  exact (@extract_video_id_substring (scripted sunny)
           (lit "https://www.youtube.com/watch?v=dQw4w9WgXcQ&t=30s")
           (lit "dQw4w9WgXcQ") (fresh sunny) eq_refl).
Defined.

Lemma extract_video_id_clean_example :
  existsb (fun x => Ascii.eqb x "&"%char) (lit "abc?d") = false.
Proof.
  exact (proj1 (@extract_video_id_clean (scripted sunny)
                  (lit "https://www.youtube.com/watch?v=abc?d&t=30s")
                  (lit "abc?d") (fresh sunny) eq_refl)).
Defined.

Lemma extract_video_id_last_segment_example :
  fst (extract_video_id (lit "https://www.youtube.com/embed/dQw4w9WgXcQ?start=5") (fresh sunny))
  = Ok (lit "dQw4w9WgXcQ")
  /\ fst (extract_video_id (lit "https://www.youtube.com/embed/short?start=5") (fresh sunny))
     = Raise invalid_url.
Proof.
  split.
  - exact (@extract_video_id_last_segment (scripted sunny)
             (lit "https://www.youtube.com/embed") (lit "dQw4w9WgXcQ") (lit "?start=5")
             (fresh sunny) eq_refl eq_refl eq_refl eq_refl).
  - exact (@extract_video_id_last_segment (scripted sunny)
             (lit "https://www.youtube.com/embed") (lit "short") (lit "?start=5")
             (fresh sunny) eq_refl eq_refl eq_refl eq_refl).
Defined.

(** ** More on the transcript adapter *)

Ltac run :=
  cbn [world session_state ui calls option_map transcript_result title_of
       no_transcript app db_path current_video_url messages fst snd].

Section AdapterMore.

Context {C : Collaborators}.

(** The result of [fetch_video_data] for an outcome of the acquisition. *)
Lemma fetch_video_data_outcome (url : str) (s : St) (o : option (str * list Entry)) :
  acquisition url s o -> fst (fetch_video_data url s) = Ok (transcript_result o).
Proof.
  intros A.
  destruct (extracted_frame url s) as (Fs & Fw & Fc).
  unfold fetch_video_data, try_except, bind.
  destruct A as [e E | video_id e w1 E L | video_id tl w1 entries w2 E L A1
                | video_id tl w1 w2 r E L A1 A2];
    apply (extract_fst url s s) in E; rewrite E.
  - reflexivity.
  - unfold external. rewrite Fw, L. reflexivity.
  - unfold external. rewrite Fw, L. run.
    inversion A1 as [t w3 en w4 G F | |]; subst.
    rewrite G. run. rewrite F. reflexivity.
  - unfold external, st_warning, emit. rewrite Fw, L. run.
    inversion A1 as [ | e w3 G | t w3 e w4 G F]; subst; rewrite G; run;
      [| rewrite F; run];
      (unfold lift;
       inversion A2 as [mk gk t' w5 en w6 MK GK G' F' | e' MK | mk e' MK GK
                       | mk gk e' w5 MK GK G' | mk gk t' w5 e' w6 MK GK G' F']; subst;
       rewrite MK; run; try (rewrite GK; run);
       try (rewrite G'; run); try (rewrite F'; run); reflexivity).
Qed.

Ltac counted Fs Fc :=
  do 3 eexists; split; [reflexivity|]; run;
  split; [rewrite Fc, <- ?app_assoc; cbn [List.app]; reflexivity|];
  split; [reflexivity|]; split; [cbn [length]; lia | exact Fs].

Lemma fetch_video_data_record (url : str) (s : St) :
  exists r s' new,
    fetch_video_data url s = (r, s')
    /\ calls s' = calls s ++ new
    /\ forallb is_transcript_call new = true
    /\ length new <= 5
    /\ session_state s' = session_state s.
Proof.
  destruct (extract_video_id url s) as [r s1] eqn:E.
  assert (E1 : fst (extract_video_id url s) = r) by now rewrite E.
  pose proof (extract_fst url s s E1) as E2. rewrite E in E2. injection E2 as ->.
  destruct (extracted_frame url s) as (Fs & Fw & Fc).
  unfold fetch_video_data, try_except, bind. rewrite E.
  destruct r as [video_id|e].
  2:{ do 2 eexists. exists []. split; [reflexivity|]. run. rewrite app_nil_r.
      repeat split; [exact Fc | cbn; lia | exact Fs]. }
  unfold external at 1. rewrite Fw.
  destruct (api_list_transcripts video_id (world s)) as [[tl|e] w1] eqn:L; run;
    [|unfold st_error, emit, bind, ret; run; counted Fs Fc].
  unfold external, st_warning, st_error, emit, ret. run.
  unfold lift.
  destruct (api_find_generated_transcript tl [lit "en"] w1) as [[t|e] w2]; run.
  - destruct (api_fetch t w2) as [[entries|e] w3]; run; [counted Fs Fc|].
    destruct (manually_created_keys tl) as [manual|e1]; run; [|counted Fs Fc].
    destruct (generated_keys tl) as [generated|e2]; run; [|counted Fs Fc].
    destruct (api_find_transcript tl (keys_union manual generated) w3)
      as [[t'|e'] w4]; run; [|counted Fs Fc].
    destruct (api_fetch t' w4) as [[entries|e'] w5]; run; counted Fs Fc.
  - destruct (manually_created_keys tl) as [manual|e1]; run; [|counted Fs Fc].
    destruct (generated_keys tl) as [generated|e2]; run; [|counted Fs Fc].
    destruct (api_find_transcript tl (keys_union manual generated) w2)
      as [[t'|e'] w4]; run; [|counted Fs Fc].
    destruct (api_fetch t' w4) as [[entries|e'] w5]; run; counted Fs Fc.
Qed.

(** X5.  [fetch_video_data] leaves the session state as it is and talks to
    the transcript service alone: the calls it adds to the record are at most
    five, all of them calls of the transcript service, never a call of the
    knowledge base. *)
Theorem fetch_video_data_calls (url : str) (s : St) :
  exists new,
    calls (snd (fetch_video_data url s)) = calls s ++ new
    /\ forallb is_transcript_call new = true
    /\ length new <= 5
    /\ session_state (snd (fetch_video_data url s)) = session_state s.
Proof.
  destruct (fetch_video_data_record url s) as (r & s' & new & H & R).
  rewrite H. now exists new.
Qed.

(** X6.  When no identifier can be extracted, [fetch_video_data] calls nobody:
    the world and the record of calls are as before, the error shown names
    the URL and the message of the exception, and the result is the
    unavailable one. *)
Theorem fetch_video_data_invalid_url (url : str) (s : St) (e : exn) :
  fst (extract_video_id url s) = Raise e ->
  fetch_video_data url s =
  (Ok (lit "Unknown", lit "No transcript available for this video."),
   mkSt (session_state s) (world s)
        (ui (extracted url s)
         ++ [UiError (lit "Error fetching transcript for " ++ url ++ lit ": " ++ exn_str e)])
        (calls s)).
Proof.
  intros E. apply (extract_fst url s s) in E.
  destruct (extracted_frame url s) as (Fs & Fw & Fc).
  unfold fetch_video_data, try_except, bind. rewrite E.
  unfold st_error, emit, ret. now rewrite Fs, Fw, Fc.
Qed.

(** X7.  The title ["Unknown"] is returned only for a failed acquisition, and
    then the text is the unavailable one: unlike the text, the title tells a
    failure from a success. *)
Theorem fetch_video_data_unknown_title (url text : str) (s : St) :
  fst (fetch_video_data url s) = Ok (lit "Unknown", text) ->
  acquisition url s None /\ text = lit "No transcript available for this video.".
Proof.
  destruct (fetch_video_data_run url s) as (o & s' & A & H & _).
  rewrite H. cbn [fst]. destruct o as [[video_id entries]|]; cbn [transcript_result].
  - unfold title_of. intros [=].
  - intros [= <-]. now split.
Qed.

End AdapterMore.

Lemma fetch_video_data_invalid_url_example :
  calls (snd (fetch_video_data (lit "not a link") (fresh sunny))) = []
  /\ fst (fetch_video_data (lit "not a link") (fresh sunny))
     = Ok (lit "Unknown", lit "No transcript available for this video.").
Proof.
  rewrite (@fetch_video_data_invalid_url (scripted sunny) (lit "not a link") (fresh sunny)
             invalid_url eq_refl).
  split; reflexivity.
Defined.

Lemma fetch_video_data_unknown_title_example :
  @acquisition (scripted no_listing) video_b (fresh no_listing) None.
Proof.
  exact (proj1 (@fetch_video_data_unknown_title (scripted no_listing) video_b
                  (lit "No transcript available for this video.") (fresh no_listing)
                  eq_refl)).
Defined.

(** ** More on the "Load Video" button *)

Section ButtonMore.

Context {C : Collaborators}.

(** The acquisition does not depend on what is shown. *)
Lemma acquisition_spinning (url : str) (s : St) (o : option (str * list Entry)) :
  acquisition url s o -> acquisition url (spinning url s) o.
Proof.
  intros A.
  destruct A as [e E | video_id e w1 E L | video_id tl w1 entries w2 E L A1
                | video_id tl w1 w2 r E L A1 A2];
    apply (extract_fst url s (spinning url s)) in E;
    apply (f_equal fst) in E; cbn [fst] in E;
    eauto using acquisition.
Qed.

(** The body of the button never raises, and either leaves the session state
    as it is or replaces the loaded video and empties the history. *)
Lemma load_video_cases (url : str) (s : St) :
  exists s',
    load_video url s = (Ok tt, s')
    /\ (session_state s' = session_state s
        \/ session_state s'
           = mkSession (app (session_state s)) (db_path (session_state s)) url []).
Proof.
  destruct (is_some (app (session_state s)) && truthy url
            && negb (str_eqb url (current_video_url (session_state s)))) eqn:G.
  - apply andb_true_iff in G as [G Hn]. apply andb_true_iff in G as [Ha Hu].
    destruct (app (session_state s)) as [h|] eqn:Ha'; [|discriminate].
    assert (Hn' : url <> current_video_url (session_state s)).
    { intros ->. rewrite str_eqb_refl in Hn. discriminate. }
    destruct (fetch_video_data_run url (spinning url s)) as (o & s2 & _ & Hf & _).
    destruct (transcript_result o) as [title transcript].
    rewrite (load_video_run _ Ha' Hu Hn' Hf).
    destruct (str_eqb transcript no_transcript).
    + eexists. split; [reflexivity|]. now left.
    + destruct (api_add h transcript (lit "text") title url (world s2)) as [[[]|e] w];
        eexists; (split; [reflexivity|]); [now right | now left].
  - unfold load_video. unfold bind at 1. unfold get_session at 1. rewrite G.
    destruct (is_some (app (session_state s))); cbn [negb];
      [destruct (str_eqb url (current_video_url (session_state s)))|];
      eexists; (split; [reflexivity|]); now left.
Qed.

(** X8.  The body of the "Load Video" button never raises, whatever the
    collaborators do; it never changes the application handle or the
    directory, and it either leaves the loaded video and the history as they
    are or sets the loaded video to the submitted URL and empties the
    history: the two change together or not at all. *)
Theorem load_video_all_or_nothing (url : str) (s : St) :
  fst (load_video url s) = Ok tt
  /\ app (session_state (snd (load_video url s))) = app (session_state s)
  /\ db_path (session_state (snd (load_video url s))) = db_path (session_state s)
  /\ ((current_video_url (session_state (snd (load_video url s)))
       = current_video_url (session_state s)
       /\ messages (session_state (snd (load_video url s))) = messages (session_state s))
      \/ (current_video_url (session_state (snd (load_video url s))) = url
          /\ messages (session_state (snd (load_video url s))) = [])).
Proof.
  destruct (load_video_cases url s) as (s' & H & [E|E]); rewrite H; cbn [fst snd];
    rewrite E; repeat split; [now left | now right].
Qed.

(** X9.  When there is no application handle, or the submitted URL is empty,
    or it is the loaded one, the body of the button calls no collaborator and
    changes neither the session state nor the world; it shows the warning
    about the key when there is no handle, the notice that the video is
    loaded when the URL is the loaded one, and nothing for an empty URL that
    differs from the loaded one. *)
Theorem load_video_gate (url : str) (s : St) :
  is_some (app (session_state s)) && truthy url
  && negb (str_eqb url (current_video_url (session_state s))) = false ->
  load_video url s =
  (Ok tt,
   mkSt (session_state s) (world s)
        (ui s ++ if negb (is_some (app (session_state s)))
                 then [UiWarning (lit "Please enter a valid API key first.")]
                 else if str_eqb url (current_video_url (session_state s))
                      then [UiInfo (lit "This video is already loaded.")]
                      else [])
        (calls s)).
Proof.
  intros G. unfold load_video. unfold bind at 1. unfold get_session at 1. rewrite G.
  destruct (is_some (app (session_state s))); cbn [negb];
    [destruct (str_eqb url (current_video_url (session_state s)))|];
    try reflexivity.
  unfold ret. rewrite app_nil_r. now destruct s.
Qed.

(** X10.  For a new URL from which no identifier can be extracted, the body
    of the button shows the error of the transcript adapter and then the
    warning that no transcript was found for the video ["Unknown"]; the
    notice for an invalid URL is not shown.  No collaborator is called and
    the session state and the world are as before. *)
Theorem load_video_invalid_url (s : St) (h : AppHandle) (url : str) (e : exn) :
  app (session_state s) = Some h ->
  truthy url = true ->
  url <> current_video_url (session_state s) ->
  fst (extract_video_id url s) = Raise e ->
  load_video url s =
  (Ok tt,
   mkSt (session_state s) (world s)
        (ui (extracted url (spinning url s))
         ++ [UiError (lit "Error fetching transcript for " ++ url ++ lit ": " ++ exn_str e);
             no_transcript_notice (lit "Unknown")])
        (calls s)).
Proof.
  intros Ha Hu Hn E.
  apply (extract_fst url s (spinning url s)) in E.
  destruct (extracted_frame url (spinning url s)) as (Fs & Fw & Fc).
  assert (Hf : fetch_video_data url (spinning url s) =
               (Ok (lit "Unknown", no_transcript),
                mkSt (session_state s) (world s)
                     (ui (extracted url (spinning url s))
                      ++ [UiError (lit "Error fetching transcript for " ++ url
                                   ++ lit ": " ++ exn_str e)])
                     (calls s))).
  { unfold fetch_video_data, try_except, bind. rewrite E.
    unfold st_error, emit, ret. now rewrite Fs, Fw, Fc. }
  rewrite (load_video_run _ Ha Hu Hn Hf), str_eqb_refl. run.
  now rewrite <- app_assoc.
Qed.

(** X11.  When the transcript of a new URL cannot be acquired, whichever step
    fails, the video that was loaded stays loaded and the history stays: the
    session state is unchanged, and the calls made are calls of the
    transcript service, none of the knowledge base. *)
Theorem load_video_unavailable (s : St) (h : AppHandle) (url : str) :
  app (session_state s) = Some h ->
  truthy url = true ->
  url <> current_video_url (session_state s) ->
  acquisition url s None ->
  session_state (snd (load_video url s)) = session_state s
  /\ exists new,
       calls (snd (load_video url s)) = calls s ++ new
       /\ forallb is_transcript_call new = true.
Proof.
  intros Ha Hu Hn A. apply acquisition_spinning in A.
  apply fetch_video_data_outcome in A.
  destruct (fetch_video_data_record url (spinning url s))
    as (r & s2 & new & Hf & Hc & Hall & _ & _).
  rewrite Hf in A. cbn [fst transcript_result] in A. subst r.
  rewrite (load_video_run _ Ha Hu Hn Hf), str_eqb_refl. run.
  split; [reflexivity|]. exists new. now split.
Qed.

(** X12.  A track with no entry is not taken for a missing transcript: the
    text is empty, which is not the unavailable text, so the body of the
    button hands the empty document to the knowledge base and, when that
    succeeds, marks the video as loaded and empties the history. *)
Theorem load_video_empty_transcript (s : St) (h : AppHandle) (url video_id : str)
    (tl : TranscriptList) (w1 : World) (t : Transcript) (w2 w3 w4 : World) :
  app (session_state s) = Some h ->
  truthy url = true ->
  url <> current_video_url (session_state s) ->
  fst (extract_video_id url s) = Ok video_id ->
  api_list_transcripts video_id (world s) = (Ok tl, w1) ->
  api_find_generated_transcript tl [lit "en"] w1 = (Ok t, w2) ->
  api_fetch t w2 = (Ok [], w3) ->
  api_add h [] (lit "text") (title_of video_id) url w3 = (Ok tt, w4) ->
  load_video url s =
  (Ok tt,
   mkSt (mkSession (Some h) (db_path (session_state s)) url []) w4
        (ui (extracted url (spinning url s)) ++ [added_notice (title_of video_id)])
        (calls s ++ [CallListTranscripts video_id; CallFindGenerated [lit "en"]; CallFetch;
                     CallAdd [] (lit "text") (title_of video_id) url])).
Proof.
  intros Ha Hu Hn E L G F Hadd.
  assert (E' : fst (extract_video_id url (spinning url s)) = Ok video_id).
  { now rewrite (extract_fst url s (spinning url s) E). }
  pose proof (@fetch_video_data_english _ url (spinning url s) video_id tl w1 t w2
                [] w3 E' L G F) as Hf.
  cbn [map join] in Hf.
  rewrite (load_video_run _ Ha Hu Hn Hf). run.
  change (str_eqb [] no_transcript) with false. cbn iota. rewrite Hadd.
  now rewrite <- app_assoc.
Qed.

End ButtonMore.

(** ** More on the chat interface *)

Section ChatMore.

Context {C : Collaborators}.

(** The chat interface when it is closed: no video is loaded or there is no
    application handle. *)
Lemma chat_interface_closed (chat_input : option str) (s : St) :
  truthy (current_video_url (session_state s)) && is_some (app (session_state s)) = false ->
  chat_interface chat_input s =
  (Ok tt, mkSt (session_state s) (world s) (ui s ++ [closed_notice (session_state s)])
               (calls s)).
Proof.
  intros G. unfold chat_interface, closed_notice.
  unfold bind at 1. unfold get_session at 1.
  destruct (truthy (current_video_url (session_state s))); cbn [negb andb] in *.
  - rewrite G. reflexivity.
  - reflexivity.
Qed.

(** X15.  With a video loaded and an application handle, a run of the script
    without a chat submission (or with an empty one) shows which video is
    loaded and the whole history, one event for each message in the order of
    the history; nobody is called and nothing changes. *)
Theorem chat_interface_idle (chat_input : option str) (s : St) (h : AppHandle) :
  truthy (current_video_url (session_state s)) = true ->
  app (session_state s) = Some h ->
  chat_input = None \/ chat_input = Some [] ->
  chat_interface chat_input s =
  (Ok tt,
   mkSt (session_state s) (world s)
        (ui s ++ UiInfo (lit "Currently chatting with: "
                         ++ current_video_url (session_state s))
              :: map shown (messages (session_state s)))
        (calls s)).
Proof.
  intros Hu Ha Hi. unfold chat_interface.
  unfold bind at 1. unfold get_session at 1. rewrite Hu, Ha. cbn [negb is_some].
  unfold bind at 1. unfold st_info, emit at 1.
  unfold bind at 1. rewrite show_messages_run. run.
  destruct Hi as [-> | ->]; cbn [truthy]; unfold ret;
    now rewrite <- app_assoc.
Qed.

(** X14.  When [app.chat] returns, the history grows by the user turn and by
    an assistant turn that holds the answer: the returned string itself, or
    the [response] attribute of the returned object, or its [str()] when it
    has no such attribute.  The call is recorded once, and the answer is
    shown after the history and the prompt. *)
Theorem chat_interface_answers (s : St) (h : AppHandle) (prompt : str)
    (response : Response) (w : World) :
  truthy (current_video_url (session_state s)) = true ->
  app (session_state s) = Some h ->
  truthy prompt = true ->
  api_chat h prompt (world s) = (Ok response, w) ->
  chat_interface (Some prompt) s =
  (Ok tt,
   mkSt (with_turns (session_state s) prompt
                    match response with
                    | RespStr a => a
                    | RespObj (Some a) _ => a
                    | RespObj None a => a
                    end)
        w
        (ui s ++ UiInfo (lit "Currently chatting with: "
                         ++ current_video_url (session_state s))
              :: map shown (messages (session_state s))
              ++ [UiChatMarkdown (lit "user") prompt;
                  UiSpinner (lit "Analyzing with Gemini...");
                  UiPlaceholderMarkdown (answer_of response)])
        (calls s ++ [CallChat prompt])).
Proof.
  intros Hu Ha Hp Hc. unfold chat_interface.
  unfold bind at 1. unfold get_session at 1. rewrite Hu, Ha, Hp. cbn [negb is_some].
  unfold bind at 1. unfold st_info, emit at 1.
  unfold bind at 1. rewrite show_messages_run.
  unfold with_app, append_message, st_spinner.
  unfold put_session, get_session, emit, try_except, external, bind, ret, raise.
  run. unfold with_turns. rewrite Ha. run. rewrite Hc. run.
  rewrite <- !app_assoc. cbn [List.app]. reflexivity.
Qed.

(** Every run of the chat interface returns, and leaves the session state as
    it is or with one exchange appended. *)
Lemma chat_interface_cases (chat_input : option str) (s : St) :
  exists s',
    chat_interface chat_input s = (Ok tt, s')
    /\ (session_state s' = session_state s
        \/ exists p a, session_state s' = with_turns (session_state s) p a).
Proof.
  destruct (truthy (current_video_url (session_state s))
            && is_some (app (session_state s))) eqn:G.
  - apply andb_true_iff in G as [Hu Ha].
    destruct (app (session_state s)) as [h|] eqn:Ha'; [|discriminate].
    destruct chat_input as [prompt|].
    + destruct (truthy prompt) eqn:Hp.
      * destruct (@chat_interface_run _ s h prompt Hu Ha' Hp) as [evs H].
        eexists. split; [exact H|]. right. now do 2 eexists.
      * destruct prompt; [|discriminate].
        unfold chat_interface. unfold bind at 1. unfold get_session at 1.
        rewrite Hu, Ha'. cbn [negb is_some truthy].
        unfold bind at 1. unfold st_info, emit at 1.
        unfold bind at 1. rewrite show_messages_run.
        eexists. split; [reflexivity|]. now left.
    + unfold chat_interface. unfold bind at 1. unfold get_session at 1.
      rewrite Hu, Ha'. cbn [negb is_some].
      unfold bind at 1. unfold st_info, emit at 1.
      unfold bind at 1. rewrite show_messages_run.
      eexists. split; [reflexivity|]. now left.
  - rewrite chat_interface_closed by assumption.
    eexists. split; [reflexivity|]. now left.
Qed.

(** X13.  The chat interface never raises, whatever [app.chat] does; it never
    changes the loaded video, the application handle or the directory, and
    the history only grows: it is left as it is, or one user turn followed by
    one assistant turn is appended to it. *)
Theorem chat_interface_append_only (chat_input : option str) (s : St) :
  fst (chat_interface chat_input s) = Ok tt
  /\ current_video_url (session_state (snd (chat_interface chat_input s)))
     = current_video_url (session_state s)
  /\ app (session_state (snd (chat_interface chat_input s))) = app (session_state s)
  /\ db_path (session_state (snd (chat_interface chat_input s)))
     = db_path (session_state s)
  /\ (messages (session_state (snd (chat_interface chat_input s)))
      = messages (session_state s)
      \/ exists p a,
           messages (session_state (snd (chat_interface chat_input s)))
           = messages (session_state s)
             ++ [mkMessage (lit "user") p; mkMessage (lit "assistant") a]).
Proof.
  destruct (chat_interface_cases chat_input s) as (s' & H & [E | (p & a & E)]);
    rewrite H; cbn [fst snd]; rewrite E; repeat split.
  - now left.
  - right. now exists p, a.
Qed.

End ChatMore.

(** ** More on the sidebar and on a run of the script *)

Lemma paired_exchange n : forall (l : list Message) (p a : str),
  length l <= n -> paired l = true ->
  paired (l ++ [mkMessage (lit "user") p; mkMessage (lit "assistant") a]) = true.
Proof.
  induction n as [|n IH]; intros l p a Hn Hl.
  - destruct l; [reflexivity | simpl in Hn; lia].
  - destruct l as [|u [|b l]]; [reflexivity | discriminate |].
    cbn [paired List.app] in *.
    apply andb_true_iff in Hl as [Hr Hl]. rewrite Hr. cbn [andb].
    apply IH; [simpl in Hn; lia | assumption].
Qed.

Section ScriptMore.

Context {C : Collaborators}.

(** X17.  Once there is an application handle, the sidebar only configures
    the key: no directory is made and no application is built, also when the
    key is another one than before, and the session state is unchanged. *)
Theorem sidebar_configuration_keeps_handle (google_api_key : str) (s : St)
    (h : AppHandle) (w : World) :
  truthy google_api_key = true ->
  app (session_state s) = Some h ->
  api_configure google_api_key (world s) = (Ok tt, w) ->
  sidebar_configuration google_api_key s =
  (Ok (Some google_api_key),
   mkSt (session_state s) w (ui s ++ [UiSuccess (lit "Google API Key configured!")])
        (calls s ++ [CallConfigure google_api_key])).
Proof.
  intros T Ha Hc. unfold sidebar_configuration. rewrite T.
  unfold st_success.
  unfold try_except, external, get_session, emit, bind, ret.
  rewrite Hc. run. rewrite Ha. reflexivity.
Qed.

(** X18.  Without an application handle, a key that is accepted makes the
    sidebar create a directory and build the application with a
    configuration that holds that directory and that key; the directory and
    the handle are kept in the session state, the loaded video and the
    history are untouched, and the three calls are made in this order. *)
Theorem sidebar_configuration_initializes (google_api_key : str) (s : St)
    (w1 : World) (d : str) (w2 : World) (a : AppHandle) (w3 : World) :
  truthy google_api_key = true ->
  app (session_state s) = None ->
  api_configure google_api_key (world s) = (Ok tt, w1) ->
  api_mkdtemp w1 = (Ok d, w2) ->
  api_from_config (config_of d google_api_key) w2 = (Ok a, w3) ->
  sidebar_configuration google_api_key s =
  (Ok (Some google_api_key),
   mkSt (mkSession (Some a) (Some d) (current_video_url (session_state s))
                   (messages (session_state s)))
        w3
        (ui s ++ [UiSuccess (lit "Google API Key configured!");
                  UiSpinner (lit "Initializing Embedchain App...");
                  UiInfo (lit "App initialized.")])
        (calls s ++ [CallConfigure google_api_key; CallMkdtemp;
                     CallFromConfig (config_of d google_api_key)])).
Proof.
  intros T Ha Hc Hd Hf. unfold sidebar_configuration. rewrite T.
  unfold embedchain_bot, set_app, set_db_path, st_success, st_spinner, st_info.
  unfold try_except, external, put_session, get_session, emit, bind, ret.
  rewrite Hc. run. rewrite Ha. cbn [is_some negb]. run. rewrite Hd. run.
  change (mkConfig (lit "google") (lit "models/gemini-1.5-pro-latest") (lit "0.5")
                   google_api_key (lit "0.95") (lit "chroma") d (lit "google")
                   GOOGLE_EMBEDDING_MODEL)
    with (config_of d google_api_key).
  rewrite Hf. run. rewrite <- !app_assoc. reflexivity.
Qed.

(** X19.  When the application cannot be built, the directory that was made
    for it stays recorded in the session state although there is no handle,
    and the key counts as invalid for the rest of the run. *)
Theorem sidebar_configuration_build_fails (google_api_key : str) (s : St)
    (w1 : World) (d : str) (w2 : World) (e : exn) (w3 : World) :
  truthy google_api_key = true ->
  app (session_state s) = None ->
  api_configure google_api_key (world s) = (Ok tt, w1) ->
  api_mkdtemp w1 = (Ok d, w2) ->
  api_from_config (config_of d google_api_key) w2 = (Raise e, w3) ->
  sidebar_configuration google_api_key s =
  (Ok None,
   mkSt (mkSession None (Some d) (current_video_url (session_state s))
                   (messages (session_state s)))
        w3
        (ui s ++ [UiSuccess (lit "Google API Key configured!");
                  UiSpinner (lit "Initializing Embedchain App...");
                  UiError (lit "Failed to configure Google API: " ++ exn_str e)])
        (calls s ++ [CallConfigure google_api_key; CallMkdtemp;
                     CallFromConfig (config_of d google_api_key)])).
Proof.
  intros T Ha Hc Hd Hf. unfold sidebar_configuration. rewrite T.
  unfold embedchain_bot, set_app, set_db_path, st_success, st_spinner, st_info, st_error.
  unfold try_except, external, put_session, get_session, emit, bind, ret.
  rewrite Hc. run. rewrite Ha. cbn [is_some negb]. run. rewrite Hd. run.
  change (mkConfig (lit "google") (lit "models/gemini-1.5-pro-latest") (lit "0.5")
                   google_api_key (lit "0.95") (lit "chroma") d (lit "google")
                   GOOGLE_EMBEDDING_MODEL)
    with (config_of d google_api_key).
  rewrite Hf. run. rewrite <- !app_assoc. reflexivity.
Qed.




(** A run of the script returns, and its history is the one before, or
    empty, each with at most one exchange appended. *)
Lemma script_cases (google_api_key video_url_input : str) (pressed : bool)
    (chat_input : option str) (s : St) :
  exists s' base tail,
    script google_api_key video_url_input pressed chat_input s = (Ok tt, s')
    /\ messages (session_state s') = base ++ tail
    /\ (base = messages (session_state s) \/ base = [])
    /\ (tail = [] \/ exists p a, tail = [mkMessage (lit "user") p;
                                         mkMessage (lit "assistant") a]).
Proof.
  unfold script.
  destruct (sidebar_configuration_handle google_api_key s) as (k & s1 & H1 & _ & Hm & _).
  rewrite (bind_ok _ _ _ H1).
  assert (H2 : exists s2, load_video_button k video_url_input pressed s1 = (Ok tt, s2)
                          /\ (messages (session_state s2) = messages (session_state s)
                              \/ messages (session_state s2) = [])).
  { rewrite load_video_button_run.
    destruct (pressed && _ && truthy video_url_input).
    - destruct (load_video_cases video_url_input s1) as (s2 & H & [E|E]);
        exists s2; (split; [exact H|]); rewrite E; [left; exact Hm | now right].
    - exists s1. split; [reflexivity | now left]. }
  destruct H2 as (s2 & H2 & Hb). rewrite (bind_ok _ _ _ H2).
  destruct (chat_interface_cases chat_input s2) as (s3 & H3 & Ht).
  exists s3, (messages (session_state s2)).
  destruct Ht as [E | (p & a & E)].
  - exists []. rewrite E, app_nil_r. repeat split; [exact H3 | | now left].
    destruct Hb as [-> | ->]; [now left | now right].
  - eexists. rewrite E. cbn [with_turns messages].
    repeat split; [exact H3 | | right; now exists p, a].
    destruct Hb as [-> | ->]; [now left | now right].
Qed.

(** X16.  A run of the script never raises, whatever the collaborators do and
    whatever is typed and pressed, and it keeps the history a sequence of
    exchanges: when every user turn of the history is followed by its
    assistant turn before the run, so it is after it. *)
Theorem script_keeps_exchanges (google_api_key video_url_input : str) (pressed : bool)
    (chat_input : option str) (s : St) :
  paired (messages (session_state s)) = true ->
  fst (script google_api_key video_url_input pressed chat_input s) = Ok tt
  /\ paired (messages (session_state
                         (snd (script google_api_key video_url_input pressed
                                      chat_input s)))) = true.
Proof.
  intros P.
  destruct (script_cases google_api_key video_url_input pressed chat_input s)
    as (s' & base & tail & H & Hm & Hb & Ht).
  rewrite H. cbn [fst snd]. split; [reflexivity|]. rewrite Hm.
  assert (Pb : paired base = true) by (destruct Hb as [-> | ->]; [exact P | reflexivity]).
  destruct Ht as [-> | (p & a & ->)].
  - now rewrite app_nil_r.
  - now apply (@paired_exchange (length base)).
Qed.

End ScriptMore.

(** ** Examples for the further properties *)

Lemma load_video_gate_example :
  load_video [] (session_of sunny video_a earlier_turns)
  = (Ok tt, session_of sunny video_a earlier_turns)
  /\ ui (snd (load_video video_b (fresh sunny)))
     = [UiWarning (lit "Please enter a valid API key first.")].
Proof.
  split.
  - exact (@load_video_gate (scripted sunny) [] (session_of sunny video_a earlier_turns)
             eq_refl).
  - rewrite (@load_video_gate (scripted sunny) video_b (fresh sunny) eq_refl).
    reflexivity.
Defined.

Lemma load_video_invalid_url_example :
  ui (snd (load_video (lit "not a link") (session_of sunny video_a earlier_turns)))
  = [UiSpinner (lit "Fetching transcript for not a link...");
     UiWarning (lit "Could not parse YouTube URL format reliably. Attempting extraction...");
     UiError (lit "Error fetching transcript for not a link: Invalid or unrecognized YouTube URL format.");
     UiWarning (lit "No transcript found for video 'Unknown'. Cannot add to knowledge base.")].
Proof.
  rewrite (@load_video_invalid_url (scripted sunny)
             (session_of sunny video_a earlier_turns) tt (lit "not a link") invalid_url
             eq_refl eq_refl);
    [reflexivity | discriminate | reflexivity].
Defined.

Lemma load_video_unavailable_example :
  session_state (snd (load_video video_b (session_of no_listing video_a earlier_turns)))
  = session_state (session_of no_listing video_a earlier_turns).
Proof.
  refine (proj1 (@load_video_unavailable (scripted no_listing)
                   (session_of no_listing video_a earlier_turns) tt video_b
                   eq_refl eq_refl _ _)).
  - discriminate.
  - eapply (@acq_no_listing (scripted no_listing)); reflexivity.
Defined.

Lemma load_video_empty_transcript_example :
  calls (snd (load_video video_b (session_of silent_video video_a earlier_turns)))
  = [CallListTranscripts (lit "dQw4w9WgXcQ"); CallFindGenerated [lit "en"]; CallFetch;
     CallAdd [] (lit "text") (lit "Video (ID: dQw4w9WgXcQ)") video_b]
  /\ current_video_url
       (session_state (snd (load_video video_b (session_of silent_video video_a earlier_turns))))
     = video_b.
Proof.
  rewrite (@load_video_empty_transcript (scripted silent_video)
             (session_of silent_video video_a earlier_turns) tt video_b
             (lit "dQw4w9WgXcQ") tt tt tt tt tt tt);
    [ split; reflexivity | reflexivity | reflexivity | discriminate
    | reflexivity | reflexivity | reflexivity | reflexivity | reflexivity ].
Defined.

Lemma chat_interface_answers_example :
  messages (session_state
              (snd (chat_interface (Some (lit "What is said?"))
                                   (session_of structured_answer video_a earlier_turns))))
  = earlier_turns
    ++ [mkMessage (lit "user") (lit "What is said?");
        mkMessage (lit "assistant") (lit "It says hello.")].
Proof.
  rewrite (@chat_interface_answers (scripted structured_answer)
             (session_of structured_answer video_a earlier_turns) tt
             (lit "What is said?")
             (RespObj (Some (lit "It says hello.")) (lit "<Response object>")) tt);
    [ reflexivity | reflexivity | reflexivity | reflexivity | reflexivity ].
Defined.

Lemma chat_interface_idle_example :
  ui (snd (chat_interface None (session_of sunny video_a earlier_turns)))
  = [UiInfo (lit "Currently chatting with: https://youtu.be/aaaaaaaaaaa");
     UiChatMarkdown (lit "user") (lit "Who speaks?");
     UiChatMarkdown (lit "assistant") (lit "The host.")].
Proof.
  rewrite (@chat_interface_idle (scripted sunny) None
             (session_of sunny video_a earlier_turns) tt eq_refl eq_refl
             (or_introl eq_refl)).
  reflexivity.
Defined.

Lemma script_keeps_exchanges_example :
  paired (messages (session_state
                      (snd (script (lit "key") video_a false (Some (lit "What is said?"))
                                   (session_of chat_down video_a earlier_turns))))) = true.
Proof.
  exact (proj2 (@script_keeps_exchanges (scripted chat_down) (lit "key") video_a false
                  (Some (lit "What is said?"))
                  (session_of chat_down video_a earlier_turns) eq_refl)).
Defined.

Lemma sidebar_configuration_keeps_handle_example :
  calls (snd (sidebar_configuration (lit "another key")
                                    (session_of sunny video_a earlier_turns)))
  = [CallConfigure (lit "another key")].
Proof.
  rewrite (@sidebar_configuration_keeps_handle (scripted sunny) (lit "another key")
             (session_of sunny video_a earlier_turns) tt tt);
    [ reflexivity | reflexivity | reflexivity | reflexivity ].
Defined.

Lemma sidebar_configuration_initializes_example :
  app (session_state (snd (sidebar_configuration (lit "key") (fresh sunny)))) = Some tt
  /\ db_path (session_state (snd (sidebar_configuration (lit "key") (fresh sunny))))
     = Some (lit "/tmp/tmpdb").
Proof.
  rewrite (@sidebar_configuration_initializes (scripted sunny) (lit "key") (fresh sunny)
             tt (lit "/tmp/tmpdb") tt tt tt);
    [ split; reflexivity | reflexivity | reflexivity | reflexivity | reflexivity
    | reflexivity ].
Defined.

Lemma sidebar_configuration_build_fails_example :
  app (session_state
         (snd (sidebar_configuration (lit "key")
                 (sidebar_session true true false sunny None [] [])))) = None
  /\ db_path (session_state
                (snd (sidebar_configuration (lit "key")
                        (sidebar_session true true false sunny None [] []))))
     = Some (lit "/tmp/tmpdb").
Proof.
  rewrite (@sidebar_configuration_build_fails (scripted_sidebar true true false sunny)
             (lit "key") (sidebar_session true true false sunny None [] [])
             tt (lit "/tmp/tmpdb") tt (failure "invalid configuration") tt);
    [ split; reflexivity | reflexivity | reflexivity | reflexivity | reflexivity
    | reflexivity ].
Defined.


